(** * Rank verification pipeline: classifier, reconciliation and DM scheduler

    A shallow embedding of the decision logic of the 8 Ball Pool account
    verification bot:

    - [Regex]      : the fragment of ECMAScript regular expressions that the
                     screenshot classifier uses, with [RegExp.prototype.test];
    - [Classifier] : [isValidProfileScreenshot] of [events/messageCreate.ts];
    - [Pipeline]   : [processImage] and [handleMessageCreate] of
                     [events/messageCreate.ts], over the verification table of
                     [services/database.ts];
    - [DMCleanup]  : the [DMCleanupService] of [services/dmCleanup.ts]. *)

From Stdlib Require Import ZArith NArith QArith Ascii String.
From stdpp Require Import gmap strings list fin_maps.

Open Scope string_scope.
Open Scope list_scope.

(* ===================================================================== *)
(** ** Regular expressions *)
(* ===================================================================== *)

Module Regex.

(** A JavaScript string is a sequence of UTF-16 code units. *)
Definition text := list N.

Definition code_units (s : string) : text :=
  map N_of_ascii (list_ascii_of_string s).

(** [Canonicalize] of the ECMAScript pattern semantics for a pattern with
    the [i] flag and without the [u] flag.  It upper-cases a code unit, and
    never maps a non-ASCII unit to an ASCII one.  Every pattern of the
    classifier is written with ASCII characters and [\s] only, so only the
    action on ASCII letters can be observed. *)
Definition canonicalize (c : N) : N :=
  if ((97 <=? c) && (c <=? 122))%N then (c - 32)%N else c.

(** [\s]: WhiteSpace and LineTerminator code units. *)
Definition is_space (c : N) : bool :=
  existsb (N.eqb c)
    [9; 10; 11; 12; 13; 32; 160; 5760; 8232; 8233; 8239; 8287; 12288; 65279]%N
  || ((8192 <=? c) && (c <=? 8202))%N.

Inductive charset : Type :=
| CsChar (c : N)                 (* a pattern character *)
| CsRange (lo hi : N)            (* [lo-hi] *)
| CsSpace                        (* \s *)
| CsUnion (a b : charset).       (* members of one class *)

(** The code units from [lo], [n] of them. *)
Fixpoint units_from (lo : N) (n : nat) : list N :=
  match n with
  | O => []
  | S n' => lo :: units_from (N.succ lo) n'
  end.

(** CharacterSetMatcher with ignoreCase: some member of the set has the
    canonical form of the input unit. *)
Fixpoint cs_mem (cs : charset) (c : N) : bool :=
  match cs with
  | CsChar p => (canonicalize p =? canonicalize c)%N
  | CsRange lo hi =>
      existsb (fun a => (canonicalize a =? canonicalize c)%N)
              (units_from lo (N.to_nat (N.succ hi - lo)))
  | CsSpace => is_space c
  | CsUnion a b => cs_mem a c || cs_mem b c
  end.

Inductive regex : Type :=
| Void
| Eps
| Sym (cs : charset)
| Seq (r1 r2 : regex)
| Alt (r1 r2 : regex)
| Star (r : regex).

(** [r+] and [r?] *)
Definition Plus (r : regex) : regex := Seq r (Star r).
Definition Opt (r : regex) : regex := Alt r Eps.

Fixpoint cat (rs : list regex) : regex :=
  match rs with
  | [] => Eps
  | [r] => r
  | r :: rs' => Seq r (cat rs')
  end.

(** A run of pattern characters. *)
Definition lit (s : string) : regex :=
  cat (map (fun a => Sym (CsChar (N_of_ascii a))) (list_ascii_of_string s)).

Definition chr (s : string) : charset :=
  match s with
  | String a _ => CsChar (N_of_ascii a)
  | EmptyString => CsChar 0%N
  end.

(** [\s*] *)
Definition ws : regex := Star (Sym CsSpace).

(** The words of a pattern. *)
Inductive matches : regex → text → Prop :=
| m_eps : matches Eps []
| m_sym cs c : cs_mem cs c = true → matches (Sym cs) [c]
| m_seq r1 r2 s1 s2 : matches r1 s1 → matches r2 s2 → matches (Seq r1 r2) (s1 ++ s2)
| m_alt_l r1 r2 s : matches r1 s → matches (Alt r1 r2) s
| m_alt_r r1 r2 s : matches r2 s → matches (Alt r1 r2) s
| m_star_nil r : matches (Star r) []
| m_star_cons r s1 s2 : matches r s1 → matches (Star r) s2 → matches (Star r) (s1 ++ s2).

Fixpoint nullable (r : regex) : bool :=
  match r with
  | Void => false
  | Eps => true
  | Sym _ => false
  | Seq a b => nullable a && nullable b
  | Alt a b => nullable a || nullable b
  | Star _ => true
  end.

(** The pattern left to match once [c] has been read. *)
Fixpoint deriv (c : N) (r : regex) : regex :=
  match r with
  | Void => Void
  | Eps => Void
  | Sym cs => if cs_mem cs c then Eps else Void
  | Seq a b =>
      if nullable a then Alt (Seq (deriv c a) b) (deriv c b)
      else Seq (deriv c a) b
  | Alt a b => Alt (deriv c a) (deriv c b)
  | Star a => Seq (deriv c a) (Star a)
  end.

(** Does [r] match the whole of [s]? *)
Fixpoint full_match (r : regex) (s : text) : bool :=
  match s with
  | [] => nullable r
  | c :: s' => full_match (deriv c r) s'
  end.

(** Does [r] match at the start of [s]? *)
Fixpoint match_at_start (r : regex) (s : text) : bool :=
  nullable r ||
  match s with
  | [] => false
  | c :: s' => match_at_start (deriv c r) s'
  end.

(** [RegExp.prototype.test] for a pattern without the [g] and [y] flags:
    the match is tried at every index from 0 (lastIndex plays no part). *)
Fixpoint test (r : regex) (s : text) : bool :=
  match_at_start r s ||
  match s with
  | [] => false
  | _ :: s' => test r s'
  end.

End Regex.

(* ===================================================================== *)
(** ** The screenshot classifier *)
(* ===================================================================== *)

Module Classifier.
Import Regex.

(** Must have at least one of these profile indicators *)
Definition profileIndicators : list regex :=
  [ lit "profile";
    cat [lit "rank"; ws; Opt (Sym (CsUnion (chr ":") (chr "-"))); ws;
         Plus (Sym (CsUnion (CsRange 97 122) CsSpace))];
    cat [Alt (lit "level") (Alt (lit "evel") (lit "lvl")); ws; lit "progress"];
    cat [lit "unique"; ws; lit "id"];
    cat [lit "player"; ws; lit "stats"] ].

(** Should NOT have main menu indicators *)
Definition mainMenuIndicators : list regex :=
  [ cat [lit "8"; ws; lit "ball"; ws; lit "pool"; ws; lit "by"; ws; lit "miniclip"];
    cat [lit "play"; ws; lit "special"];
    cat [lit "play"; ws; lit "minigames"];
    cat [lit "play"; ws; lit "with"; ws; lit "friends"];
    cat [lit "pool"; ws; lit "pass"];
    cat [lit "free"; ws; lit "rewards"];
    lit "leaderboards";
    lit "shop";
    lit "clubs";
    cat [lit "one"; ws; lit "&"; ws; lit "done"];
    cat [lit "event"; ws; lit "hyperspace"];
    cat [lit "brainrot"; ws; lit "shop"] ].

(** [for (const pattern of ps) { if (pattern.test(ocrText)) ... }]: the scan
    stops at the first pattern that matches. *)
Fixpoint first_hit (ps : list regex) (ocrText : text) : option regex :=
  match ps with
  | [] => None
  | pattern :: ps' =>
      if test pattern ocrText then Some pattern else first_hit ps' ocrText
  end.

Definition isValidProfileScreenshot (ocrText : text) : bool :=
  match first_hit mainMenuIndicators ocrText with
  | Some _ => false                       (* main menu indicator: return false *)
  | None =>
      let hasProfileIndicator :=
        match first_hit profileIndicators ocrText with
        | Some _ => true
        | None => false
        end in
      if negb hasProfileIndicator then false else true
  end.

End Classifier.


(* ===================================================================== *)
(** ** The verification table ([services/database.ts]) *)
(* ===================================================================== *)

Module Database.

(** A row of the [verification] table. *)
Record Verification : Type := {
  v_discord_id : string;
  v_username : string;
  v_rank_name : string;
  v_level_detected : Z;
  v_role_id_assigned : string;
  v_verified_at : N;
  v_updated_at : N
}.

(** [VerificationData]: what the pipeline hands to [upsertVerification]. *)
Record VerificationData : Type := {
  d_discord_id : string;
  d_username : string;
  d_rank_name : string;
  d_level_detected : Z;
  d_role_id_assigned : string
}.

(** [prisma.verification.upsert]: the [update] branch rewrites the five
    listed columns of the row keyed by [discord_id]; the [create] branch
    inserts a row whose two timestamps are left to the column defaults,
    taken here as the time of the call. *)
Definition upsertVerification (now : N) (data : VerificationData)
    (db : gmap string Verification) : gmap string Verification :=
  match db !! d_discord_id data with
  | Some old =>
      <[d_discord_id data :=
          {| v_discord_id := v_discord_id old;
             v_username := d_username data;
             v_rank_name := d_rank_name data;
             v_level_detected := d_level_detected data;
             v_role_id_assigned := d_role_id_assigned data;
             v_verified_at := v_verified_at old;
             v_updated_at := now |}]> db
  | None =>
      <[d_discord_id data :=
          {| v_discord_id := d_discord_id data;
             v_username := d_username data;
             v_rank_name := d_rank_name data;
             v_level_detected := d_level_detected data;
             v_role_id_assigned := d_role_id_assigned data;
             v_verified_at := now;
             v_updated_at := now |}]> db
  end.

(** [prisma.verification.findUnique] *)
Definition getVerification (discordId : string)
    (db : gmap string Verification) : option Verification :=
  db !! discordId.

(** [prisma.verification.deleteMany({})]: every row goes, their number is
    returned. *)
Definition purgeAllVerifications (db : gmap string Verification)
    : nat * gmap string Verification :=
  (size db, ∅).

End Database.

(* ===================================================================== *)
(** ** The submission pipeline ([events/messageCreate.ts]) *)
(* ===================================================================== *)

Module Pipeline.
Import Regex Classifier Database.

(** An entry of [config/ranks.json]. *)
Record RankConfig : Type := {
  role_id : string;
  rank_name : string;
  level_min : Z;
  level_max : Z
}.

(** What [rankMatcher.matchRank] returns: the tier with the level read from
    the text and the confidence of the match.  Both are plain JavaScript
    numbers that the handler guards with [||] and [&&], so they may be
    missing. *)
Record MatchedRank : Type := {
  tier :> RankConfig;
  level_detected : option Z;
  confidence : option Q
}.

Record OcrResult : Type := {
  ocr_text : text;
  ocr_confidence : Q
}.

(** A Discord attachment as the handler sees it.  [url_ext] is
    [path.extname(url).toLowerCase()], [url_path_ext] the same of the URL cut
    at its first [?]; [fetched] is what the download followed by
    [ocrService.extractText] yields, [None] when either throws. *)
Record Attachment : Type := {
  url_ext : string;
  url_path_ext : string;
  contentType : option string;
  fetched : option OcrResult
}.

Record Message : Type := {
  author_id : string;
  author_username : string;
  author_bot : bool;
  channel_id : string;
  attachments : list Attachment
}.

(** The return value of [processImage]. *)
Record ImageResult : Type := {
  success : bool;
  rank : option MatchedRank;
  level : option Z;
  isProfile : option bool
}.

(** An element of the [results] array of the handler. *)
Record Result : Type := {
  r_success : bool;
  r_rank : option MatchedRank;
  r_level : option Z;
  r_confidence : option Q;
  r_isProfile : option bool
}.

Inductive ErrorMessage : Type :=
| InvalidFormat      (* "Invalid format. Please upload a screenshot of your ... Profile screen" *)
| Unreadable         (* "I couldn't read your screenshot clearly. ..." *)
| ProcessingError.   (* "An error occurred while processing your verification. ..." *)

(** The side effects of one run of the handler, in program order. *)
Inductive Effect : Type :=
| SendErrorDM (userId : string) (message : ErrorMessage)
| SendVerificationDM (userId rankName : string) (levelMin : Z)
| LogAction (action_type : string) (ok : bool)
| LogError (what : string)
| DeleteMessage
| AssignRankRole (member : string) (r : RankConfig)
| UpsertVerification (data : VerificationData).

(** How a run of the handler ends.  [Accept], [RejectInvalid],
    [RejectUnreadable] and [RejectNoUpgrade] are the four outcomes of the
    reconciliation; the others are the remaining exits of the code. *)
Inductive Outcome : Type :=
| Ignored                 (* bot author, other channel, no image attachment *)
| RejectInvalid
| RejectUnreadable
| NoRank                  (* [if (!bestMatch.rank) return] *)
| MemberNotFound
| RejectNoUpgrade
| Accept (r : MatchedRank) (lvl : Z)
| Failed                  (* the [catch] block *)
| Uncaught.               (* an exception outside the [try] block *)

Record Run : Type := {
  outcome : Outcome;
  effects : list Effect;
  db_after : gmap string Verification
}.

Inductive Call (A : Type) : Type :=
| Throws
| Returns (a : A).
Arguments Throws {A}.
Arguments Returns {A} a.

(** The collaborators as one run meets them. *)
Record Collaborators : Type := {
  now : N;                               (* [new Date()] *)
  fetch_member : Call (option string);   (* [message.guild?.members.fetch(id)] *)
  db_read_fails : bool;                  (* [getVerification] throws *)
  assign_fails : bool;                   (* [assignRankRole] throws *)
  db_write_fails : bool                  (* [upsertVerification] throws *)
}.

Definition ALLOWED_IMAGE_EXTENSIONS : list string := [".jpg"; ".jpeg"; ".png"].

(** [ALLOWED_IMAGE_EXTENSIONS.includes(ext) || contentType.startsWith('image/')]
    with [contentType = attachment.contentType || ''] *)
Definition isImage (ext : string) (ct : option string) : bool :=
  existsb (String.eqb ext) ALLOWED_IMAGE_EXTENSIONS
  || String.prefix "image/" (default "" ct).

(** [x || 0] and the truth value of a number ([undefined] and [0] are falsy) *)
Definition truthy (x : option Q) : bool :=
  match x with
  | Some c => negb (Qeq_bool c 0)
  | None => false
  end.

Definition or_zero (x : option Q) : Q :=
  match x with
  | Some c => if Qeq_bool c 0 then 0%Q else c
  | None => 0%Q
  end.

(** [a > b] on numbers *)
Definition gt (a b : Q) : bool := negb (Qle_bool a b).

(** The callback of [results.reduce]: [!best] is false for an object. *)
Definition better (best current : Result) : Result :=
  if truthy (r_confidence current)
     && gt (or_zero (r_confidence current)) (or_zero (r_confidence best))
  then current else best.

(** [results.reduce(callback)] without an initial value: the first element
    seeds the accumulator; on an empty array it throws a TypeError. *)
Definition reduce (results : list Result) : option Result :=
  match results with
  | [] => None
  | r :: rest => Some (fold_left better rest r)
  end.

(** The confidence as the comparison of [reduce] reads it. *)
Definition conf (r : Result) : Q := or_zero (r_confidence r).

(** [best], found at index [i], is the first of the greatest in [seen]. *)
Definition first_max (seen : list Result) (i : nat) (best : Result) : Prop :=
  seen !! i = Some best
  ∧ (∀ j r, seen !! j = Some r → (conf r <= conf best)%Q)
  ∧ (∀ j r, (j < i)%nat → seen !! j = Some r → (conf r < conf best)%Q).

(** [bestMatch.level || matchedRank.level_min] *)
Definition level_or_min (lvl : option Z) (matchedRank : MatchedRank) : Z :=
  match lvl with
  | Some l => if (l =? 0)%Z then level_min matchedRank else l
  | None => level_min matchedRank
  end.

Section Handler.

(** [process.env.RANK_CHANNEL_ID || '1436026328913547377'] *)
Variable RANK_CHANNEL_ID : string.
(** [rankMatcher.matchRank] and [rankMatcher.getRankByName]: the rank
    matcher is a service outside this development. *)
Variable matchRank : text → option MatchedRank.
Variable getRankByName : string → option RankConfig.

Definition processImage (attachment : Attachment) : ImageResult :=
  if negb (isImage (url_path_ext attachment) (contentType attachment)) then
    {| success := false; rank := None; level := None; isProfile := None |}
  else
    match fetched attachment with
    | None =>    (* catch *)
        {| success := false; rank := None; level := None; isProfile := None |}
    | Some ocrResult =>
        if negb (isValidProfileScreenshot (ocr_text ocrResult)) then
          {| success := false; rank := None; level := None; isProfile := Some false |}
        else
          match matchRank (ocr_text ocrResult) with
          | None =>
              {| success := false; rank := None; level := None; isProfile := Some true |}
          | Some matchedRank =>
              {| success := true; rank := Some matchedRank;
                 level := level_detected matchedRank; isProfile := None |}
          end
    end.

(** The loop that fills [results]. *)
Fixpoint collect (imageAttachments : list Attachment) : list Result :=
  match imageAttachments with
  | [] => []
  | attachment :: rest =>
      let result := processImage attachment in
      match success result, rank result with
      | true, Some rk =>
          {| r_success := true; r_rank := Some rk; r_level := level result;
             r_confidence := confidence rk; r_isProfile := isProfile result |}
          :: collect rest
      | _, _ =>
          match isProfile result with
          | Some false =>
              {| r_success := false; r_rank := None; r_level := None;
                 r_confidence := None; r_isProfile := Some false |}
              :: collect rest
          | _ => collect rest
          end
      end
  end.

(** [r.isProfile === false] *)
Definition not_profile (r : Result) : bool :=
  match r_isProfile r with
  | Some false => true
  | _ => false
  end.

(** [r.success && r.rank] *)
Definition matched (r : Result) : bool :=
  r_success r && bool_decide (is_Some (r_rank r)).

Definition failed (done_so_far : list Effect) (message : Message)
    (db : gmap string Verification) : Run :=
  {| outcome := Failed;
     effects := done_so_far ++
                [SendErrorDM (author_id message) ProcessingError;
                 LogAction "error" false];
     db_after := db |}.

(** [existingRank && existingRank.level_min > matchedRank.level_min], under
    [if (existingVerification)] *)
Definition has_higher_rank (existingVerification : option Verification)
    (matchedRank : MatchedRank) : bool :=
  match existingVerification with
  | Some existing =>
      match getRankByName (v_rank_name existing) with
      | Some existingRank => (level_min existingRank >? level_min matchedRank)%Z
      | None => false
      end
  | None => false
  end.

(** The condition of the claims on the stored rank: a record of the user
    exists and its rank name resolves to a tier whose [level_min] is
    strictly greater than that of the matched tier. *)
Definition prior_rank_higher (db : gmap string Verification)
    (userId : string) (matchedRank : MatchedRank) : Prop :=
  ∃ prior existingRank,
    db !! userId = Some prior
    ∧ getRankByName (v_rank_name prior) = Some existingRank
    ∧ (level_min existingRank > level_min matchedRank)%Z.

(** The [try] block of the handler. *)
Definition verify (env : Collaborators) (message : Message)
    (db : gmap string Verification)
    (matchedRank : MatchedRank) (levelDetected : Z) : Run :=
  match fetch_member env with
  | Throws => failed [] message db
  | Returns None =>
      {| outcome := MemberNotFound;
         effects := [LogError "Member not found in guild"];
         db_after := db |}
  | Returns (Some member) =>
      if db_read_fails env then failed [] message db
      else
        let existingVerification := getVerification (author_id message) db in
        if has_higher_rank existingVerification matchedRank then
          {| outcome := RejectNoUpgrade;
             effects := [DeleteMessage];
             db_after := db |}
        else if assign_fails env then failed [] message db
        else
          let assign := AssignRankRole member (tier matchedRank) in
          if db_write_fails env then failed [assign] message db
          else
            let data :=
              {| d_discord_id := author_id message;
                 d_username := author_username message;
                 d_rank_name := rank_name matchedRank;
                 d_level_detected := levelDetected;
                 d_role_id_assigned := role_id matchedRank |} in
            {| outcome := Accept matchedRank levelDetected;
               effects := [assign;
                           UpsertVerification data;
                           LogAction "verification_updated" true;
                           SendVerificationDM (author_id message)
                             (rank_name matchedRank) (level_min matchedRank);
                           DeleteMessage];
               db_after := upsertVerification (now env) data db |}
  end.

(** [message.attachments.filter(...)]: the attachments that are images by
    extension or by content type. *)
Definition image_attachments (message : Message) : list Attachment :=
  List.filter (fun a => isImage (url_ext a) (contentType a))
              (attachments message).

Definition ignored (db : gmap string Verification) : Run :=
  {| outcome := Ignored; effects := []; db_after := db |}.

Definition handleMessageCreate (env : Collaborators) (message : Message)
    (db : gmap string Verification) : Run :=
  if author_bot message then ignored db
  else if negb (String.eqb (channel_id message) RANK_CHANNEL_ID) then ignored db
  else
    let imageAttachments := image_attachments message in
    if (length imageAttachments =? 0)%nat then ignored db
    else
      let results := collect imageAttachments in
      let invalidImages := List.filter not_profile results in
      if (0 <? length invalidImages)%nat then
        {| outcome := RejectInvalid;
           effects := [SendErrorDM (author_id message) InvalidFormat;
                       LogAction "ocr_processed" false;
                       DeleteMessage];
           db_after := db |}
      else if (length results =? 0)%nat || negb (existsb matched results) then
        {| outcome := RejectUnreadable;
           effects := [SendErrorDM (author_id message) Unreadable;
                       LogAction "ocr_processed" false;
                       DeleteMessage];
           db_after := db |}
      else
        match reduce results with
        | None =>      (* TypeError; not reached, [results] is not empty here *)
            {| outcome := Uncaught; effects := []; db_after := db |}
        | Some bestMatch =>
            match r_rank bestMatch with
            | None => {| outcome := NoRank; effects := []; db_after := db |}
            | Some matchedRank =>
                let levelDetected := level_or_min (r_level bestMatch) matchedRank in
                verify env message db matchedRank levelDetected
            end
        end.

End Handler.

End Pipeline.

(* ===================================================================== *)
(** ** The DM cleanup service ([services/dmCleanup.ts]) *)
(* ===================================================================== *)

Module DMCleanup.

Record Message : Type := {
  id : string;
  channel_id : string;
  isDMBased : bool          (* [message.channel.isDMBased()] *)
}.

Record ScheduledDeletion : Type := {
  messageId : string;
  channelId : string;
  deleteAt : N;
  timeout : nat             (* the handle that [setTimeout] returned *)
}.

(** A timer that [setTimeout] has registered and that has neither fired nor
    been cleared: the message its callback closes over and the time from
    which it may fire. *)
Record Timer : Type := {
  t_message : Message;
  t_due : N
}.

(** The service object together with the part of the runtime it acts on. *)
Record State : Type := {
  scheduledDeletions : gmap string ScheduledDeletion;
  timers : gmap nat Timer;     (* pending timers of the runtime *)
  next_timeout : nat;          (* the next handle [setTimeout] returns *)
  clock : N;                   (* [Date.now()] *)
  awaiting : list Message;     (* callbacks suspended at [await message.delete()] *)
  delete_calls : list string   (* ids on which [message.delete()] was called, latest first *)
}.

Definition DELETE_AFTER_MS : N := 30 * 60 * 1000.

Definition init : State :=
  {| scheduledDeletions := ∅; timers := ∅; next_timeout := 0;
     clock := 0; awaiting := []; delete_calls := [] |}.

Definition cancelDeletion (messageId : string) (s : State) : State :=
  match scheduledDeletions s !! messageId with
  | Some scheduled =>
      {| scheduledDeletions := delete messageId (scheduledDeletions s);
         timers := delete (timeout scheduled) (timers s);      (* clearTimeout *)
         next_timeout := next_timeout s;
         clock := clock s;
         awaiting := awaiting s;
         delete_calls := delete_calls s |}
  | None => s
  end.

Definition scheduleDeletion (message : Message) (s : State) : State :=
  if negb (isDMBased message) then s     (* Only schedule DMs *)
  else
    let messageId := id message in
    let channelId := channel_id message in
    let deleteAt := (clock s + DELETE_AFTER_MS)%N in
    (* Cancel existing deletion if any *)
    let s1 := cancelDeletion messageId s in
    let timeout := next_timeout s1 in
    {| scheduledDeletions :=
         <[messageId := {| messageId := messageId; channelId := channelId;
                           deleteAt := deleteAt; timeout := timeout |}]>
           (scheduledDeletions s1);
       timers :=
         <[timeout := {| t_message := message;
                         t_due := (clock s1 + DELETE_AFTER_MS)%N |}]> (timers s1);
       next_timeout := S timeout;
       clock := clock s1;
       awaiting := awaiting s1;
       delete_calls := delete_calls s1 |}.

(** [cleanup]: clear the timer of every entry, then empty the map. *)
Definition cleanup (s : State) : State :=
  {| scheduledDeletions := ∅;
     timers := map_fold (fun _ scheduled ts => delete (timeout scheduled) ts)
                        (timers s) (scheduledDeletions s);
     next_timeout := next_timeout s;
     clock := clock s;
     awaiting := awaiting s;
     delete_calls := delete_calls s |}.

(** Time passes. *)
Definition advance (dt : N) (s : State) : State :=
  {| scheduledDeletions := scheduledDeletions s;
     timers := timers s;
     next_timeout := next_timeout s;
     clock := (clock s + dt)%N;
     awaiting := awaiting s;
     delete_calls := delete_calls s |}.

(** The runtime fires the pending timer [t], not before it is due.  The
    callback calls [message.delete()] and is suspended at the [await]. *)
Definition fire (t : nat) (s : State) : State :=
  match timers s !! t with
  | Some tm =>
      if (t_due tm <=? clock s)%N then
        {| scheduledDeletions := scheduledDeletions s;
           timers := delete t (timers s);
           next_timeout := next_timeout s;
           clock := clock s;
           awaiting := awaiting s ++ [t_message tm];
           delete_calls := id (t_message tm) :: delete_calls s |}
      else s
  | None => s
  end.

(** The [i]-th suspended callback resumes.  Whether [message.delete()]
    resolved or rejected, the [try] and the [catch] branch both end with
    [this.scheduledDeletions.delete(messageId)]. *)
Definition settle (i : nat) (ok : bool) (s : State) : State :=
  match awaiting s !! i with
  | Some message =>
      {| scheduledDeletions :=
           if ok then delete (id message) (scheduledDeletions s)   (* try *)
           else delete (id message) (scheduledDeletions s);        (* catch *)
         timers := timers s;
         next_timeout := next_timeout s;
         clock := clock s;
         awaiting := delete i (awaiting s);
         delete_calls := delete_calls s |}
  | None => s
  end.

(** What can happen to the service: calls of its methods, and the runtime
    advancing the clock, firing a timer, resuming a callback. *)
Inductive Event : Type :=
| Schedule (message : Message)
| Cancel (messageId : string)
| Cleanup
| Advance (dt : N)
| Fire (t : nat)
| Settle (i : nat) (ok : bool).

Definition step (s : State) (e : Event) : State :=
  match e with
  | Schedule message => scheduleDeletion message s
  | Cancel messageId => cancelDeletion messageId s
  | Cleanup => cleanup s
  | Advance dt => advance dt s
  | Fire t => fire t s
  | Settle i ok => settle i ok s
  end.

Definition run (evs : list Event) (s : State) : State := fold_left step evs s.

(** The pending timers whose callback deletes the message [m]. *)
Definition live_for (s : State) (m : string) (t : nat) : Prop :=
  ∃ tm, timers s !! t = Some tm ∧ id (t_message tm) = m.

(** The pending timers that the registry holds for [m]. *)
Definition held_for (s : State) (m : string) (t : nat) : Prop :=
  ∃ scheduled, scheduledDeletions s !! m = Some scheduled
               ∧ timeout scheduled = t ∧ is_Some (timers s !! t).

(** Number of [message.delete()] calls made on [m]. *)
Definition attempts (s : State) (m : string) : nat :=
  length (List.filter (String.eqb m) (delete_calls s)).

(** [schedule m] is never called while a callback for [m] is suspended in
    its [message.delete()]. *)
Fixpoint respects (m : string) (evs : list Event) (s : State) : Prop :=
  match evs with
  | [] => True
  | e :: evs' =>
      match e with
      | Schedule message =>
          id message = m → isDMBased message = true → m ∉ id <$> awaiting s
      | _ => True
      end ∧ respects m evs' (step s e)
  end.

(** Is [e] a call that schedules the DM [m]? *)
Definition schedules (m : string) (e : Event) : bool :=
  match e with
  | Schedule message => String.eqb (id message) m && isDMBased message
  | _ => false
  end.

(** [schedule message] called twice in a row. *)
Definition schedule_twice (message : Message) (s : State) : State :=
  scheduleDeletion message (scheduleDeletion message s).

(** [schedule message], then the events [between], then [cancel]. *)
Definition schedule_then_cancel (message : Message) (between : list Event)
    (s : State) : State :=
  cancelDeletion (id message) (run between (scheduleDeletion message s)).

(** No pending timer for [m] may fire before the time [D]. *)
Definition not_due_before (s : State) (m : string) (D : N) : Prop :=
  ∀ t tm, timers s !! t = Some tm → id (t_message tm) = m → (D <= t_due tm)%N.

(** Handles are never reused, and no two entries hold the same handle. *)
Record consistent (s : State) : Prop := {
  timers_fresh : ∀ t tm, timers s !! t = Some tm → t < next_timeout s;
  entries_fresh : ∀ m scheduled,
    scheduledDeletions s !! m = Some scheduled → timeout scheduled < next_timeout s;
  entries_distinct : ∀ m1 m2 sd1 sd2,
    scheduledDeletions s !! m1 = Some sd1 →
    scheduledDeletions s !! m2 = Some sd2 →
    timeout sd1 = timeout sd2 → m1 = m2
}.

(** Every pending timer for [m] is the one the registry holds for [m], and
    none is pending while a callback for [m] is suspended. *)
Definition tracked (s : State) (m : string) : Prop :=
  (∀ t, live_for s m t → held_for s m t)
  ∧ (m ∈ id <$> awaiting s → ∀ t, ¬ live_for s m t).

End DMCleanup.

(* ===================================================================== *)
(** ** Sample data *)
(* ===================================================================== *)

Module Fixtures.
Import Regex Database Pipeline.

Definition bronze : RankConfig :=
  {| role_id := "role-bronze"; rank_name := "Bronze"; level_min := 10; level_max := 49 |}.
Definition gold : RankConfig :=
  {| role_id := "role-gold"; rank_name := "Gold"; level_min := 50; level_max := 79 |}.
Definition platinum : RankConfig :=
  {| role_id := "role-platinum"; rank_name := "Platinum"; level_min := 80; level_max := 200 |}.

Definition ranks : list RankConfig := [bronze; gold; platinum].

(** Modelled from the spec: [rankMatcher.getRankByName], the lookup of a
    tier of the rank table by its name. *)
Definition getRankByName (name : string) : option RankConfig :=
  List.find (fun r => String.eqb (rank_name r) name) ranks.

Definition text_gold55 : text := code_units "Profile  Level progress 55  Rank: Gold".
Definition text_gold : text := code_units "Profile  Rank: Gold".
Definition text_bronze : text := code_units "Profile  Level progress 12  Rank: Bronze".
Definition text_platinum : text := code_units "Profile  Level progress 93  Rank: Platinum".
Definition text_blurry : text := code_units "Profile  L3ve1 pr0gre55".
Definition text_menu : text := code_units "8 Ball Pool by Miniclip  Play Special".

Definition answers : list (text * MatchedRank) :=
  [ (text_gold55, {| tier := gold; level_detected := Some 55%Z; confidence := Some 90%Q |});
    (text_gold, {| tier := gold; level_detected := None; confidence := Some 60%Q |});
    (text_bronze, {| tier := bronze; level_detected := Some 12%Z; confidence := Some 95%Q |});
    (text_platinum, {| tier := platinum; level_detected := Some 93%Z; confidence := Some 95%Q |}) ].

(** A stand-in for [rankMatcher.matchRank] that knows the sample texts. *)
Definition matchRank (t : text) : option MatchedRank :=
  match List.find (fun p => bool_decide (p.1 = t)) answers with
  | Some p => Some p.2
  | None => None
  end.

Definition RANK_CHANNEL_ID : string := "1436026328913547377".

Definition screenshot (t : text) : Attachment :=
  {| url_ext := ".png"; url_path_ext := ".png"; contentType := Some "image/png";
     fetched := Some {| ocr_text := t; ocr_confidence := 88%Q |} |}.

Definition submission (atts : list Attachment) : Message :=
  {| author_id := "user-1"; author_username := "alice"; author_bot := false;
     channel_id := RANK_CHANNEL_ID; attachments := atts |}.

Definition all_fine : Collaborators :=
  {| now := 1000; fetch_member := Returns (Some "member-1");
     db_read_fails := false; assign_fails := false; db_write_fails := false |}.

Definition record (name : string) (lvl : Z) (role : string) : Verification :=
  {| v_discord_id := "user-1"; v_username := "alice"; v_rank_name := name;
     v_level_detected := lvl; v_role_id_assigned := role;
     v_verified_at := 10; v_updated_at := 10 |}.

Definition db_gold70 : gmap string Verification := {[ "user-1" := record "Gold" 70 "role-gold" ]}.
Definition db_retired : gmap string Verification := {[ "user-1" := record "Diamond" 150 "role-diamond" ]}.

Definition handle := handleMessageCreate RANK_CHANNEL_ID matchRank getRankByName.

(** The entry of [results] for a match. *)
Definition entry (rk : MatchedRank) : Result :=
  {| r_success := true; r_rank := Some rk; r_level := level_detected rk;
     r_confidence := confidence rk; r_isProfile := None |}.

Definition rk_gold55 : MatchedRank :=
  {| tier := gold; level_detected := Some 55%Z; confidence := Some 90%Q |}.
Definition rk_gold_nolevel : MatchedRank :=
  {| tier := gold; level_detected := None; confidence := Some 60%Q |}.
Definition rk_bronze : MatchedRank :=
  {| tier := bronze; level_detected := Some 12%Z; confidence := Some 95%Q |}.
Definition rk_platinum : MatchedRank :=
  {| tier := platinum; level_detected := Some 93%Z; confidence := Some 95%Q |}.

(** Confidences 90, 95, 95: the two last tie for the greatest. *)
Definition tied_results : list Result :=
  [entry rk_gold55; entry rk_bronze; entry rk_platinum].

End Fixtures.

Module TimerFixtures.
Import DMCleanup.

Definition dm : Message :=
  {| id := "msg-1"; channel_id := "dm-alice"; isDMBased := true |}.
Definition other : Message :=
  {| id := "msg-2"; channel_id := "dm-bob"; isDMBased := true |}.

(** [dm] was scheduled five minutes ago, another notice since. *)
Definition history : list Event :=
  [Schedule dm; Advance 300000; Schedule other].

(** A quarter of an hour in which another notice is rescheduled. *)
Definition quarter : list Event :=
  [Advance 600000; Schedule other; Fire 0; Advance 300000].

(** An hour later every timer left is fired and the service shut down. *)
Definition later : list Event :=
  [Advance 3600000; Fire 0; Fire 1; Fire 2; Fire 3; Fire 4;
   Settle 0 true; Cleanup].

(** [dm] is scheduled again while its deletion is in flight, and once more
    after the deletion has settled. *)
Definition overlap : list Event :=
  [Schedule dm; Advance DELETE_AFTER_MS; Fire 0;
   Schedule dm; Settle 0 true; Schedule dm].

(** The timer of [dm] has fired and its [message.delete()] is in flight. *)
Definition in_flight : list Event :=
  [Schedule dm; Advance DELETE_AFTER_MS; Fire 0].

(** [dm] is scheduled again while that deletion is in flight, which then
    settles. *)
Definition raced : list Event :=
  in_flight ++ [Schedule dm; Settle 0 true].

(** Half an hour later the timer with handle 1 fires. *)
Definition expiry : list Event := [Advance DELETE_AFTER_MS; Fire 1].

End TimerFixtures.

(* ===================================================================== *)
(** ** Reading a run of the handler *)
(* ===================================================================== *)

Module Runs.
Import Database Pipeline.

(** The direct messages among the effects of a run. *)
Definition is_dm (e : Effect) : bool :=
  match e with
  | SendErrorDM _ _ | SendVerificationDM _ _ _ => true
  | _ => false
  end.

Definition dms (es : list Effect) : list Effect := List.filter is_dm es.

(** The same message with other attachments. *)
Definition with_attachments (message : Message) (atts : list Attachment) : Message :=
  {| author_id := author_id message;
     author_username := author_username message;
     author_bot := author_bot message;
     channel_id := channel_id message;
     attachments := atts |}.

(** The row [v] touched at the time [t]. *)
Definition touched (t : N) (v : Verification) : Verification :=
  {| v_discord_id := v_discord_id v;
     v_username := v_username v;
     v_rank_name := v_rank_name v;
     v_level_detected := v_level_detected v;
     v_role_id_assigned := v_role_id_assigned v;
     v_verified_at := v_verified_at v;
     v_updated_at := t |}.

End Runs.

(* ===================================================================== *)
(** ** Reading a run of the DM cleanup service *)
(* ===================================================================== *)

Module Timers.
Import DMCleanup.

(** The ids of the DMs that the events schedule, in order. *)
Fixpoint scheduled_ids (evs : list Event) : list string :=
  match evs with
  | [] => []
  | Schedule message :: evs' =>
      if isDMBased message then id message :: scheduled_ids evs'
      else scheduled_ids evs'
  | _ :: evs' => scheduled_ids evs'
  end.

(** Is [e] a call that schedules a DM? *)
Definition schedules_dm (e : Event) : bool :=
  match e with
  | Schedule message => isDMBased message
  | _ => false
  end.

(** Each entry is filed under its own message id, and a pending timer it
    holds deletes that message, in that channel, from [deleteAt] on. *)
Definition entries_describe_timers (s : State) : Prop :=
  ∀ m scheduled,
    scheduledDeletions s !! m = Some scheduled →
    messageId scheduled = m
    ∧ ∀ tm, timers s !! timeout scheduled = Some tm →
            id (t_message tm) = m
            ∧ channel_id (t_message tm) = channelId scheduled
            ∧ t_due tm = deleteAt scheduled.

(** Pending timers are for DMs and due within the delay. *)
Definition timers_are_dms (s : State) : Prop :=
  ∀ t tm,
    timers s !! t = Some tm →
    isDMBased (t_message tm) = true
    ∧ (t_due tm <= clock s + DELETE_AFTER_MS)%N.

(** The pending timers whose callback deletes [m]. *)
Definition timers_for (m : string) (ts : gmap nat Timer) : gmap nat Timer :=
  filter (fun p => id (t_message p.2) = m) ts.


(** How often the events schedule the DM [m]. *)
Definition times_scheduled (m : string) (evs : list Event) : nat :=
  length (List.filter (String.eqb m) (scheduled_ids evs)).

End Timers.

(* ===================================================================== *)
(** ** Slash commands ([commands/slashCommands.ts]) *)
(* ===================================================================== *)

Module SlashCommands.
Import Pipeline.

(** An element of the argument array handed to a command handler. *)
Inductive Arg : Type :=
| AText (s : string)
| ANumber (z : Z).        (* [z.toString()] *)

(** What a handler passes to [message.reply]. *)
Inductive Content : Type :=
| CString (s : string)
| CEmbeds (embeds files : string)     (* an object with [embeds] *)
| COther (shown : string).            (* anything else, [shown] is [String(content)] *)

(** The argument of [interaction.editReply]. *)
Inductive Payload : Type :=
| PContent (s : string)
| PEmbeds (embeds files : string)
| PConfirm (what : string)    (* the check mark and [what], as "Recheck completed." *)
| PDenied                     (* "You do not have permission to use this command or the command does not exist." *)
| PError.                     (* "An error occurred while processing your command." *)

(** A run of [handleAdminCommand] or [handleModeratorCommand] as the slash
    command sees it: the replies it made, and whether it threw. *)
Record HandlerRun : Type := {
  said : list Content;
  threw : bool
}.

Record Interaction : Type := {
  isChatInputCommand : bool;
  commandName : string;
  user_id : string;
  opt_user : option string;      (* [options.getUser('user')], its id *)
  opt_rank : option string;      (* [options.getString('rank')] *)
  opt_lines : option Z;          (* [options.getInteger('lines')] *)
  opt_page : option Z            (* [options.getInteger('page')] *)
}.

Inductive Action : Type :=
| DeferReply
| EditReply (p : Payload)
| AdminCommand (author command : string) (args : list Arg)
| ModeratorCommand (author command : string) (args : list Arg).

(** The [try] block either completes or throws, after some actions. *)
Inductive Tried : Type :=
| Completed (done_ : list Action)
| Thrown (done_ : list Action).

Definition actions_of (t : Tried) : list Action :=
  match t with
  | Completed made => made
  | Thrown made => made
  end.

(** [mockMessage.reply] *)
Definition reply (content : Content) : Action :=
  match content with
  | CString s => EditReply (PContent s)
  | CEmbeds embeds files => EditReply (PEmbeds embeds files)
  | COther shown => EditReply (PContent shown)
  end.

(** One [case] of the two [switch] statements: the handler runs with the
    mock message; when it returns without having replied, the confirmation
    is sent. *)
Definition dispatch (call : Action) (h : HandlerRun) (confirm : string) : Tried :=
  let made := call :: map reply (said h) in
  if threw h then Thrown made
  else
    match said h with
    | [] => Completed (made ++ [EditReply (PConfirm confirm)])   (* [!replied] *)
    | _ => Completed made
    end.

(** [x || d] on an integer option *)
Definition int_or (x : option Z) (d : Z) : Z :=
  match x with
  | Some z => if (z =? 0)%Z then d else z
  | None => d
  end.

Definition admin_commands : list string :=
  ["recheck"; "setrank"; "removerank"; "purgedb"; "logs"; "instructions"].

Definition moderator_commands : list string := ["checkrank"; "listverified"].

Section Commands.

(** [isAdmin] and [isModerator] of [commands/index.ts], and the two command
    handlers, are outside this development. *)
Variable isAdmin isModerator : string → bool.
Variable handleAdminCommand handleModeratorCommand :
  string → string → list Arg → HandlerRun.

Definition admin (i : Interaction) (args : list Arg) (confirm : string) : Tried :=
  dispatch (AdminCommand (user_id i) (commandName i) args)
           (handleAdminCommand (user_id i) (commandName i) args) confirm.

Definition moderator (i : Interaction) (args : list Arg) (confirm : string) : Tried :=
  dispatch (ModeratorCommand (user_id i) (commandName i) args)
           (handleModeratorCommand (user_id i) (commandName i) args) confirm.

(** The [switch] under [if (isUserAdmin)]; [None] when no [case] applies.
    [getUser('user', true)] and [getString('rank', true)] throw on a
    missing option. *)
Definition admin_switch (i : Interaction) : option Tried :=
  let name := commandName i in
  if String.eqb name "recheck" then
    Some match opt_user i with
         | Some user => admin i [AText user] "Recheck completed."
         | None => Thrown []
         end
  else if String.eqb name "setrank" then
    Some match opt_user i, opt_rank i with
         | Some user, Some rank => admin i [AText user; AText rank] "Rank set successfully."
         | _, _ => Thrown []
         end
  else if String.eqb name "removerank" then
    Some match opt_user i with
         | Some user => admin i [AText user] "Rank removed successfully."
         | None => Thrown []
         end
  else if String.eqb name "purgedb" then
    Some (admin i [] "Database purged.")
  else if String.eqb name "logs" then
    Some (admin i [ANumber (int_or (opt_lines i) 50)] "Logs retrieved.")
  else if String.eqb name "instructions" then
    Some (admin i [] "Instructions sent.")
  else None.

(** The [switch] under [if (isUserModerator)]. *)
Definition moderator_switch (i : Interaction) : option Tried :=
  let name := commandName i in
  if String.eqb name "checkrank" then
    Some match opt_user i with
         | Some user => moderator i [AText user] "Rank checked."
         | None => Thrown []
         end
  else if String.eqb name "listverified" then
    Some (moderator i [ANumber (int_or (opt_page i) 1)] "Verified users listed.")
  else None.

(** The [try] block of [handleSlashCommand]. *)
Definition try_command (i : Interaction) : Tried :=
  let isUserAdmin := isAdmin (user_id i) in
  let isUserModerator := isModerator (user_id i) in
  match (if isUserAdmin then admin_switch i else None) with
  | Some tried => tried
  | None =>
      match (if isUserModerator then moderator_switch i else None) with
      | Some tried => tried
      | None =>
          if String.eqb (commandName i) "help" then
            moderator i [] "Help displayed."
          else
            Completed [EditReply PDenied]
      end
  end.

(** [handleSlashCommand]; [deferReply] and [editReply] are taken to
    succeed. *)
Definition handleSlashCommand (i : Interaction) : list Action :=
  if negb (isChatInputCommand i) then []
  else
    DeferReply ::
    match try_command i with
    | Completed made => made
    | Thrown made => made ++ [EditReply PError]     (* catch *)
    end.

End Commands.

(** [s.includes(q)] *)
Fixpoint includes (q s : string) : bool :=
  String.prefix q s ||
  match s with
  | EmptyString => false
  | String _ s' => includes q s'
  end.

Record Choice : Type := {
  name : string;
  value : string
}.

Section Autocomplete.

(** [String.prototype.toLowerCase] and [rankMatcher.getAllRanks()] *)
Variable toLowerCase : string → string.
Variable allRanks : list RankConfig.

(** [handleAutocomplete] for the focused option [focused_name] with the
    text [focused_value]; [None] when nothing is responded. *)
Definition handleAutocomplete (focused_name focused_value : string)
    : option (list Choice) :=
  if String.eqb focused_name "rank" then
    let query := toLowerCase focused_value in
    let filtered :=
      map (fun rank => {| name := rank_name rank; value := rank_name rank |})
          (take 25 (List.filter
                      (fun rank => includes query (toLowerCase (rank_name rank)))
                      allRanks)) in
    Some filtered
  else None.

End Autocomplete.

End SlashCommands.

(* ===================================================================== *)
(** ** The instructions of the verification channel ([bot.ts]) *)
(* ===================================================================== *)

Module Instructions.
Import Pipeline.

Record ChannelMessage : Type := {
  msg_author : string;
  msg_embed_titles : list (option string)    (* [embed.title] of each embed *)
}.

Record Channel : Type := {
  isTextBased : bool;
  isDMBased : bool;
  has_messages : bool;       (* ['messages' in channel] *)
  has_send : bool;           (* ['send' in channel] *)
  fetch_fails : bool;        (* [channel.messages.fetch] throws *)
  send_fails : bool;         (* [channel.send] throws *)
  messages : list ChannelMessage     (* latest first *)
}.

(** What [channel.send] is given. *)
Record Post : Type := {
  post_title : string;
  post_image : option string;
  post_footer : option string;
  post_files : list string
}.

Record Env : Type := {
  RANK_CHANNEL_ID : option string;       (* [process.env.RANK_CHANNEL_ID] *)
  EXAMPLE_IMAGE_URL : option string;     (* [process.env.EXAMPLE_IMAGE_URL] *)
  bot : string;                          (* the account the client runs as *)
  ready : bool;                          (* [client.user] is set *)
  example_png : bool;                    (* [fs.existsSync] of the three paths *)
  example_jpg : bool;
  example_jpeg : bool
}.

(** The title of the embed, after its camera pictogram. *)
Definition TITLE : string := "8 Ball Pool Rank Verification".

(** A string is falsy when empty. *)
Definition truthy_string (x : option string) : bool :=
  match x with
  | Some s => negb (String.eqb s "")
  | None => false
  end.

(** The callback of [messages.find]; [client.user?.id] is undefined until
    the client is ready. *)
Definition is_instructions (env : Env) (msg : ChannelMessage) : bool :=
  if negb (ready env && String.eqb (msg_author msg) (bot env)) then false
  else
    match msg_embed_titles msg with
    | [] => false
    | title :: _ =>
        match title with
        | Some t => String.eqb t TITLE
        | None => false
        end
    end.

(** The first of the three local example images that exists. *)
Definition exampleImagePath (env : Env) : option string :=
  if example_png env then Some "assets/images/example-profile.png"
  else if example_jpg env then Some "assets/images/example-profile.jpg"
  else if example_jpeg env then Some "assets/images/example-profile.jpeg"
  else None.

Definition the_post (env : Env) : Post :=
  match exampleImagePath env with
  | Some path =>
      {| post_title := TITLE;
         post_image := Some "attachment://example-profile.png";
         post_footer := Some "Example profile screenshot above";
         post_files := [path] |}
  | None =>
      if truthy_string (EXAMPLE_IMAGE_URL env) then
        {| post_title := TITLE;
           post_image := EXAMPLE_IMAGE_URL env;
           post_footer := Some "Example profile screenshot above";
           post_files := [] |}
      else
        {| post_title := TITLE; post_image := None;
           post_footer := None; post_files := [] |}
  end.

(** [sendVerificationChannelInstructions]: what is posted, if anything.
    [fetched] is what [client.channels.fetch(channelId)] yields. *)
Definition sendVerificationChannelInstructions (env : Env)
    (fetched : Call (option Channel)) : option Post :=
  if negb (truthy_string (RANK_CHANNEL_ID env)) then None
  else
    match fetched with
    | Throws => None                                  (* outer catch *)
    | Returns None => None
    | Returns (Some channel) =>
        if negb (isTextBased channel) || isDMBased channel then None
        else
          let existingInstructions :=
            if has_messages channel then
              if fetch_fails channel then None          (* inner catch: go on *)
              else List.find (is_instructions env) (take 10 (messages channel))
            else None in
          match existingInstructions with
          | Some _ => None
          | None =>
              if has_send channel then
                if send_fails channel then None         (* outer catch *)
                else Some (the_post env)
              else None
          end
    end.

(** The channel once the post, if any, has arrived: a message of the bot
    with one embed. *)
Definition posted (env : Env) (channel : Channel) (post : option Post) : Channel :=
  match post with
  | None => channel
  | Some p =>
      {| isTextBased := isTextBased channel;
         isDMBased := isDMBased channel;
         has_messages := has_messages channel;
         has_send := has_send channel;
         fetch_fails := fetch_fails channel;
         send_fails := send_fails channel;
         messages :=
           {| msg_author := bot env; msg_embed_titles := [Some (post_title p)] |}
           :: messages channel |}
  end.

(** One start of the bot, as far as the channel is concerned. *)
Definition start (env : Env) (channel : Channel) : Channel :=
  posted env channel
    (sendVerificationChannelInstructions env (Returns (Some channel))).

End Instructions.

Module MoreFixtures.
Import Pipeline SlashCommands Instructions.

Definition isAdmin (userId : string) : bool := String.eqb userId "admin-1".
Definition isModerator (userId : string) : bool :=
  String.eqb userId "mod-1" || String.eqb userId "admin-1".

(** Handlers that answer once, except [purgedb], which throws. *)
Definition handleAdminCommand (author command : string) (args : list Arg)
    : HandlerRun :=
  if String.eqb command "purgedb" then {| said := []; threw := true |}
  else {| said := [CString "done"]; threw := false |}.
Definition handleModeratorCommand (author command : string) (args : list Arg)
    : HandlerRun :=
  {| said := []; threw := false |}.

Definition slash (user command : string) : Interaction :=
  {| isChatInputCommand := true; commandName := command; user_id := user;
     opt_user := Some "user-1"; opt_rank := Some "Gold";
     opt_lines := None; opt_page := Some 0%Z |}.

Definition run_slash :=
  handleSlashCommand isAdmin isModerator handleAdminCommand handleModeratorCommand.

(** ASCII letters only. *)
Definition lower_ascii (a : ascii) : ascii :=
  let n := N_of_ascii a in
  if ((65 <=? n) && (n <=? 90))%N then ascii_of_N (n + 32) else a.
Fixpoint toLowerCase (s : string) : string :=
  match s with
  | EmptyString => EmptyString
  | String a s' => String (lower_ascii a) (toLowerCase s')
  end.

Definition env_ready : Env :=
  {| RANK_CHANNEL_ID := Some "1436026328913547377"; EXAMPLE_IMAGE_URL := None;
     bot := "bot-1"; ready := true;
     example_png := false; example_jpg := true; example_jpeg := true |}.

Definition chatter (n : nat) : list ChannelMessage :=
  repeat {| msg_author := "user-1"; msg_embed_titles := [] |} n.

Definition rank_channel (msgs : list ChannelMessage) : Channel :=
  {| isTextBased := true; isDMBased := false; has_messages := true;
     has_send := true; fetch_fails := false; send_fails := false;
     messages := msgs |}.

End MoreFixtures.

Module HandlerFixtures.
Import Pipeline Fixtures.

(** An image whose download or recognition failed. *)
Definition failed_download : Attachment :=
  {| url_ext := ".png"; url_path_ext := ".png"; contentType := Some "image/png";
     fetched := None |}.

Definition platinum_shot : Message := submission [screenshot text_platinum].

Definition with_failed_download : Message :=
  submission [screenshot text_platinum; failed_download].

End HandlerFixtures.

(* ===================================================================== *)
(** ** Facts about the matcher *)
(* ===================================================================== *)

Section RegexFacts.
Import Regex.

Lemma nullable_matches r : nullable r = true ↔ matches r [].
Proof.
  split.
  - induction r; simpl; intros H; try discriminate.
    + constructor.
    + apply andb_true_iff in H as [H1 H2].
      apply (m_seq r1 r2 [] []); auto.
    + apply orb_true_iff in H as [H|H]; [apply m_alt_l | apply m_alt_r]; auto.
    + constructor.
  - intros H. remember [] as s eqn:Hs. induction H; simpl; subst; auto.
    + discriminate.
    + apply app_eq_nil in Hs as [-> ->]. rewrite IHmatches1, IHmatches2; auto.
    + rewrite IHmatches; auto.
    + rewrite IHmatches; auto. apply orb_true_r.
Qed.

Lemma deriv_sound c r s : matches (deriv c r) s → matches r (c :: s).
Proof.
  revert s. induction r; simpl; intros s H.
  - inversion H.
  - inversion H.
  - destruct (cs_mem cs c) eqn:E; inversion H; subst. by constructor.
  - destruct (nullable r1) eqn:E.
    + inversion H; subst.
      * match goal with X : matches (Seq _ _) _ |- _ => inversion X; subst end.
        apply (m_seq r1 r2 (c :: s1) s2); auto.
      * apply (m_seq r1 r2 [] (c :: s)); auto.
        by apply nullable_matches.
    + inversion H; subst.
      apply (m_seq r1 r2 (c :: s1) s2); auto.
  - inversion H; subst; [apply m_alt_l | apply m_alt_r]; auto.
  - inversion H; subst.
    apply (m_star_cons r (c :: s1) s2); auto.
Qed.

Lemma deriv_complete c r s : matches r (c :: s) → matches (deriv c r) s.
Proof.
  intros H. remember (c :: s) as cs eqn:Hcs. revert s Hcs.
  induction H; intros s' Hcs; simpl.
  - discriminate.
  - injection Hcs as -> <-. rewrite H. constructor.
  - destruct s1 as [|c1 s1].
    + simpl in Hcs. subst s2.
      assert (nullable r1 = true) as -> by by apply nullable_matches.
      apply m_alt_r. by apply IHmatches2.
    + simpl in Hcs. injection Hcs as -> <-.
      destruct (nullable r1).
      * apply m_alt_l. constructor; auto.
      * constructor; auto.
  - apply m_alt_l; auto.
  - apply m_alt_r; auto.
  - discriminate.
  - destruct s1 as [|c1 s1].
    + simpl in Hcs. by apply IHmatches2.
    + simpl in Hcs. injection Hcs as -> <-. constructor; auto.
Qed.

Lemma full_match_matches r s : full_match r s = true ↔ matches r s.
Proof.
  revert r. induction s as [|c s IH]; intros r; simpl.
  - apply nullable_matches.
  - rewrite IH. split; [apply deriv_sound | apply deriv_complete].
Qed.

Lemma match_at_start_spec r s :
  match_at_start r s = true ↔ ∃ s1 s2, s = s1 ++ s2 ∧ matches r s1.
Proof.
  revert r. induction s as [|c s IH]; intros r; simpl.
  - rewrite orb_false_r, nullable_matches. split.
    + intros H. by exists [], [].
    + intros (s1 & s2 & Hs & H). symmetry in Hs.
      by apply app_eq_nil in Hs as [-> _].
  - rewrite orb_true_iff, IH, nullable_matches. split.
    + intros [H | (s1 & s2 & -> & H)].
      * by exists [], (c :: s).
      * exists (c :: s1), s2. split; [done | by apply deriv_sound].
    + intros (s1 & s2 & Hs & H). destruct s1 as [|c1 s1]; [by left | right].
      simpl in Hs. injection Hs as <- ->.
      exists s1, s2. split; [done | by apply deriv_complete].
Qed.

(** [test] finds a match exactly when some substring of the text is a word
    of the pattern. *)
Lemma test_spec r s :
  test r s = true ↔ ∃ pre mid post, s = pre ++ mid ++ post ∧ matches r mid.
Proof.
  induction s as [|c s IH]; cbn [test].
  - rewrite orb_false_r, match_at_start_spec. split.
    + intros (s1 & s2 & Hs & H). by exists [], s1, s2.
    + intros (pre & mid & post & Hs & H). symmetry in Hs.
      apply app_eq_nil in Hs as [-> Hs]. apply app_eq_nil in Hs as [-> ->].
      by exists [], [].
  - rewrite orb_true_iff, IH, match_at_start_spec. split.
    + intros [(s1 & s2 & Hs & H) | (pre & mid & post & -> & H)].
      * by exists [], s1, s2.
      * by exists (c :: pre), mid, post.
    + intros (pre & mid & post & Hs & H). destruct pre as [|c' pre].
      * left. by exists mid, post.
      * right. simpl in Hs. injection Hs as <- ->. by exists pre, mid, post.
Qed.

(** A text that contains a word of the pattern passes [test]. *)
Lemma test_contains r pre mid post :
  full_match r mid = true → test r (pre ++ mid ++ post) = true.
Proof.
  intros H. apply test_spec. exists pre, mid, post.
  split; [done | by apply full_match_matches].
Qed.

End RegexFacts.

(* ===================================================================== *)
(** ** The classifier *)
(* ===================================================================== *)

Section ClassifierFacts.
Import Regex Classifier.

Lemma first_hit_None ps t :
  first_hit ps t = None ↔ ¬ Exists (fun p => test p t = true) ps.
Proof.
  induction ps as [|p ps IH]; simpl.
  - split; [intros _ H; inversion H | done].
  - destruct (test p t) eqn:E.
    + split; [discriminate | intros H; destruct H; by left].
    + rewrite IH. split.
      * intros H H'. inversion H'; subst; [congruence | auto].
      * intros H H'. apply H. by right.
Qed.

Lemma first_hit_Some ps t p :
  first_hit ps t = Some p → p ∈ ps ∧ test p t = true.
Proof.
  induction ps as [|q ps IH]; simpl; [discriminate |].
  destruct (test q t) eqn:E.
  - intros [= <-]. split; [left | done].
  - intros H. destruct (IH H). split; [by right | done].
Qed.

Lemma menu_hit_rejects t :
  Exists (fun p => test p t = true) mainMenuIndicators →
  isValidProfileScreenshot t = false.
Proof.
  intros H. unfold isValidProfileScreenshot.
  destruct (first_hit mainMenuIndicators t) eqn:E; [done |].
  by apply first_hit_None in E.
Qed.

Example profile_text_accepted :
  isValidProfileScreenshot
    (code_units "Profile  Level Progress 42  Rank: Silver") = true.
Proof. reflexivity. Qed.

Example menu_text_rejected :
  isValidProfileScreenshot
    (code_units "8 BALL POOL by Miniclip  Level progress 12  PLAY SPECIAL") = false.
Proof. reflexivity. Qed.

Example no_indicator_rejected :
  isValidProfileScreenshot (code_units "hello world 42") = false.
Proof. reflexivity. Qed.

(** C4: a text that a main-menu pattern matches is classified [false]; a
    text that no main-menu pattern matches is classified [true] exactly
    when a profile pattern matches it; every text that contains
    "8 Ball Pool by Miniclip" or "Play Special" is classified [false],
    whatever else it contains. *)
Theorem classify_menu_before_profile :
  ∀ ocrText : text,
    (Exists (fun p => test p ocrText = true) mainMenuIndicators →
       isValidProfileScreenshot ocrText = false)
    ∧ (¬ Exists (fun p => test p ocrText = true) mainMenuIndicators →
         (isValidProfileScreenshot ocrText = true
          ↔ Exists (fun p => test p ocrText = true) profileIndicators))
    ∧ (∀ pre post,
         isValidProfileScreenshot
           (pre ++ code_units "8 Ball Pool by Miniclip" ++ post) = false)
    ∧ (∀ pre post,
         isValidProfileScreenshot (pre ++ code_units "Play Special" ++ post) = false).
Proof.
  intros t. split; [apply menu_hit_rejects |]. split; [| split].
  - intros Hmenu. apply first_hit_None in Hmenu.
    unfold isValidProfileScreenshot. rewrite Hmenu. split.
    + destruct (first_hit profileIndicators t) as [p|] eqn:E; [| discriminate].
      intros _. apply first_hit_Some in E as [Hin Ht].
      apply Exists_exists. by exists p.
    + intros Hp. destruct (first_hit profileIndicators t) eqn:E; [done |].
      by apply first_hit_None in E.
  - intros pre post. apply menu_hit_rejects.
    apply Exists_cons_hd. by apply test_contains.
  - intros pre post. apply menu_hit_rejects.
    apply Exists_cons_tl, Exists_cons_hd. by apply test_contains.
Qed.

End ClassifierFacts.

(* ===================================================================== *)
(** ** Selection of the best match *)
(* ===================================================================== *)

Section BestMatch.
Import Pipeline.

Lemma or_zero_Some c : (or_zero (Some c) == c)%Q.
Proof.
  simpl. destruct (Qeq_bool c 0) eqn:E; [| reflexivity].
  apply Qeq_bool_iff in E. by symmetry.
Qed.

Lemma truthy_false_conf r : truthy (r_confidence r) = false → (conf r == 0)%Q.
Proof.
  unfold conf, truthy, or_zero. destruct (r_confidence r) as [c|]; [| reflexivity].
  destruct (Qeq_bool c 0); [reflexivity | discriminate].
Qed.

Lemma gt_true a b : gt a b = true ↔ (b < a)%Q.
Proof.
  unfold gt. rewrite negb_true_iff. split.
  - intros H. apply Qnot_le_lt. intros Hle.
    apply Qle_bool_iff in Hle. congruence.
  - intros H. destruct (Qle_bool a b) eqn:E; [| done].
    apply Qle_bool_iff in E. by apply Qlt_not_le in H.
Qed.

(** One step of the scan, for confidences that are not negative. *)
Lemma better_cases best current :
  (0 <= conf best)%Q →
  ((conf best < conf current)%Q ∧ better best current = current)
  ∨ ((conf current <= conf best)%Q ∧ better best current = best).
Proof.
  intros Hb. unfold better. fold (conf current) (conf best).
  destruct (truthy (r_confidence current)) eqn:Et; simpl.
  - destruct (gt (conf current) (conf best)) eqn:Eg.
    + left. split; [by apply gt_true | done].
    + right. split; [| done]. apply Qnot_lt_le. intros H.
      apply gt_true in H. congruence.
  - right. split; [| done]. apply truthy_false_conf in Et. by rewrite Et.
Qed.

Lemma first_max_step seen i best current :
  (0 <= conf best)%Q →
  first_max seen i best →
  ∃ i', first_max (seen ++ [current]) i' (better best current).
Proof.
  intros Hb (Hi & Hmax & Hfirst).
  assert (Hlt : (i < length seen)%nat) by by eapply lookup_lt_Some.
  destruct (better_cases best current Hb) as [[Hc ->] | [Hc ->]].
  - exists (length seen). repeat split.
    + rewrite lookup_app_r by lia. by rewrite Nat.sub_diag.
    + intros j r Hj. apply lookup_app_Some in Hj as [Hj | [_ Hj]].
      * apply Qlt_le_weak. eapply Qle_lt_trans; [by eapply Hmax | done].
      * apply list_lookup_singleton_Some in Hj as [_ <-]. apply Qle_refl.
    + intros j r Hjl Hj. rewrite lookup_app_l in Hj by done.
      eapply Qle_lt_trans; [by eapply Hmax | done].
  - exists i. repeat split.
    + by rewrite lookup_app_l.
    + intros j r Hj. apply lookup_app_Some in Hj as [Hj | [_ Hj]].
      * by eapply Hmax.
      * by apply list_lookup_singleton_Some in Hj as [_ <-].
    + intros j r Hjl Hj. rewrite lookup_app_l in Hj by lia. by eapply Hfirst.
Qed.

Lemma fold_better_first_max rest : ∀ seen i best,
  Forall (fun r => (0 <= conf r)%Q) (seen ++ rest) →
  first_max seen i best →
  ∃ i', first_max (seen ++ rest) i' (fold_left better rest best).
Proof.
  induction rest as [|current rest IH]; intros seen i best Hpos Hfm; simpl.
  - rewrite app_nil_r. by exists i.
  - assert (Hb : (0 <= conf best)%Q).
    { destruct Hfm as (Hi & _). rewrite Forall_forall in Hpos.
      apply Hpos. apply elem_of_app. left. by eapply list_elem_of_lookup_2. }
    destruct (first_max_step seen i best current Hb Hfm) as [i' Hfm'].
    replace (seen ++ current :: rest) with ((seen ++ [current]) ++ rest)
      in * by by rewrite <- app_assoc.
    by eapply IH.
Qed.

Lemma reduce_first_max results :
  results ≠ [] →
  Forall (fun r => (0 <= conf r)%Q) results →
  ∃ i best, reduce results = Some best ∧ first_max results i best.
Proof.
  destruct results as [|r0 rest]; [done |]. intros _ Hpos.
  destruct (fold_better_first_max rest [r0] 0%nat r0 Hpos) as [i Hfm].
  - split; [reflexivity |]. split.
    + intros j r Hj. apply list_lookup_singleton_Some in Hj as [_ <-].
      apply Qle_refl.
    + intros j r Hj. lia.
  - exists i, (fold_left better rest r0). by split.
Qed.

(** C6: on a non-empty list of match results, each with a confidence that
    is not negative, the scan returns a result of the list whose confidence
    is the greatest of the list, and every result before it in the list has
    a strictly smaller confidence: among equals the first one wins. *)
Theorem best_match_is_first_of_greatest (results : list Result) :
  results ≠ [] →
  Forall (fun r => ∃ c, r_confidence r = Some c ∧ (0 <= c)%Q) results →
  ∃ i bestMatch cb,
    reduce results = Some bestMatch
    ∧ results !! i = Some bestMatch
    ∧ r_confidence bestMatch = Some cb
    ∧ (∀ j r c, results !! j = Some r → r_confidence r = Some c → (c <= cb)%Q)
    ∧ (∀ j r c, (j < i)%nat →
         results !! j = Some r → r_confidence r = Some c → (c < cb)%Q).
Proof.
  intros Hne Hall.
  assert (Hconf : ∀ r c, r_confidence r = Some c → (conf r == c)%Q).
  { intros r c Hc. unfold conf. rewrite Hc. apply or_zero_Some. }
  assert (Hpos : Forall (fun r => (0 <= conf r)%Q) results).
  { eapply Forall_impl; [exact Hall |]. intros r (c & Hc & H0).
    by rewrite (Hconf r c Hc). }
  destruct (reduce_first_max results Hne Hpos) as (i & best & Hred & Hi & Hmax & Hfirst).
  assert (best ∈ results) as Hin by by eapply list_elem_of_lookup_2.
  rewrite Forall_forall in Hall. destruct (Hall best Hin) as (cb & Hcb & _).
  exists i, best, cb. repeat split; try done.
  - intros j r c Hj Hc.
    rewrite <- (Hconf r c Hc), <- (Hconf best cb Hcb). by eapply Hmax.
  - intros j r c Hji Hj Hc.
    rewrite <- (Hconf r c Hc), <- (Hconf best cb Hcb). by eapply Hfirst.
Qed.

End BestMatch.


(* ===================================================================== *)
(** ** The handler *)
(* ===================================================================== *)

Section HandlerFacts.
Import Regex Classifier Database Pipeline.

Variable RANK_CHANNEL_ID : string.
Variable matchRank : text → option MatchedRank.
Variable getRankByName : string → option RankConfig.

Local Abbreviation processImage := (processImage matchRank).
Local Abbreviation collect := (collect matchRank).
Local Abbreviation has_higher_rank := (has_higher_rank getRankByName).
Local Abbreviation verify := (verify getRankByName).
Local Abbreviation handleMessageCreate :=
  (handleMessageCreate RANK_CHANNEL_ID matchRank getRankByName).

(** What [processImage] can return. *)
Lemma processImage_cases a :
  (∃ rk, processImage a =
           {| success := true; rank := Some rk;
              level := level_detected rk; isProfile := None |})
  ∨ (success (processImage a) = false ∧ rank (processImage a) = None).
Proof.
  unfold Pipeline.processImage.
  destruct (negb (isImage _ _)); [by right |].
  destruct (fetched a) as [ocr|]; [| by right].
  destruct (negb (isValidProfileScreenshot _)); [by right |].
  destruct (matchRank _) as [rk|]; [left; by exists rk | by right].
Qed.

(** An entry of [results] is a match or the mark of a rejected image. *)
Lemma collect_entries atts r :
  r ∈ collect atts →
  (∃ rk, r = {| r_success := true; r_rank := Some rk;
                r_level := level_detected rk;
                r_confidence := confidence rk; r_isProfile := None |})
  ∨ r = {| r_success := false; r_rank := None; r_level := None;
           r_confidence := None; r_isProfile := Some false |}.
Proof.
  induction atts as [|a atts IH]; simpl; [by intros ?%elem_of_nil |].
  destruct (processImage_cases a) as [[rk ->] | [Hs Hr]]; simpl.
  - intros [-> | Hin]%elem_of_cons; [left; by exists rk | auto].
  - rewrite Hs.
    destruct (isProfile (processImage a)) as [[|]|]; auto.
    intros [-> | Hin]%elem_of_cons; auto.
Qed.

(** A rejected image leaves its mark in [results]. *)
Lemma collect_keeps_invalid atts a :
  a ∈ atts → isProfile (processImage a) = Some false →
  ∃ r, r ∈ collect atts ∧ not_profile r = true.
Proof.
  induction atts as [|a' atts IH]; [by intros ?%elem_of_nil |].
  intros [<- | Hin]%elem_of_cons Hp; simpl.
  - destruct (processImage_cases a) as [[rk Hrk] | [Hs Hr]].
    + rewrite Hrk in Hp. discriminate.
    + rewrite Hs, Hp. eexists. split; [left | done].
  - destruct (IH Hin Hp) as (r & Hr & Hnp).
    exists r. split; [| done].
    destruct (success (processImage a')), (rank (processImage a'));
      try destruct (isProfile (processImage a')) as [[|]|];
      rewrite ?elem_of_cons; auto.
Qed.

(** Without a match and without a rejected image, [results] stays empty. *)
Lemma collect_nothing atts :
  (∀ a, a ∈ atts → isProfile (processImage a) ≠ Some false) →
  (∀ a, a ∈ atts → success (processImage a) = false) →
  collect atts = [].
Proof.
  induction atts as [|a atts IH]; intros Hp Hs; simpl; [done |].
  rewrite (Hs a) by left.
  assert (Ha := Hp a ltac:(left)).
  assert (collect atts = []) as ->.
  { apply IH; intros; [apply Hp | apply Hs]; by right. }
  by destruct (isProfile (processImage a)) as [[|]|].
Qed.

Lemma filter_nonempty {A} (f : A → bool) l x :
  x ∈ l → f x = true → (0 <? length (List.filter f l))%nat = true.
Proof.
  intros Hin Hf. apply Nat.ltb_lt.
  assert (In x (List.filter f l)) as Hx.
  { apply filter_In. split; [by apply list_elem_of_In | done]. }
  destruct (List.filter f l); [destruct Hx | simpl; lia].
Qed.

Lemma filter_empty {A} (f : A → bool) l x :
  List.filter f l = [] → x ∈ l → f x = false.
Proof.
  intros Hf Hin. destruct (f x) eqn:E; [| done].
  assert (In x (List.filter f l)) as Hx.
  { apply filter_In. split; [by apply list_elem_of_In | done]. }
  rewrite Hf in Hx. destruct Hx.
Qed.

(** The scan returns one of the results. *)
Lemma fold_better_elem rest : ∀ best, fold_left better rest best ∈ best :: rest.
Proof.
  induction rest as [|c rest IH]; intros best; simpl; [left |].
  pose proof (IH (better best c)) as Hin. unfold better in Hin |- *.
  destruct (_ && _); rewrite !elem_of_cons in *; tauto.
Qed.

Lemma reduce_elem results best : reduce results = Some best → best ∈ results.
Proof.
  destruct results as [|r rest]; [discriminate |].
  intros [= <-]. apply fold_better_elem.
Qed.

(** The handler reaches its [try] block once a best match is selected. *)
Lemma handler_selects env message db :
  author_bot message = false →
  channel_id message = RANK_CHANNEL_ID →
  List.filter not_profile (collect (image_attachments message)) = [] →
  existsb matched (collect (image_attachments message)) = true →
  ∃ bestMatch matchedRank,
    reduce (collect (image_attachments message)) = Some bestMatch
    ∧ r_rank bestMatch = Some matchedRank
    ∧ handleMessageCreate env message db =
        verify env message db matchedRank
               (level_or_min (r_level bestMatch) matchedRank).
Proof.
  intros Hbot Hch Hinv Hm. unfold Pipeline.handleMessageCreate.
  rewrite Hbot, Hch, String.eqb_refl. simpl.
  destruct (collect (image_attachments message)) as [|r0 rest] eqn:Ec;
    [discriminate |].
  assert (image_attachments message ≠ []) as Hne.
  { intros E. rewrite E in Ec. discriminate. }
  destruct (image_attachments message) as [|a0 atts] eqn:Ea; [done |].
  cbn [length Nat.eqb]. rewrite Hinv. cbn [length Nat.ltb Nat.leb Nat.eqb orb].
  rewrite Hm. cbn [negb].
  assert (fold_left better rest r0 ∈ collect (a0 :: atts)) as Hin.
  { rewrite Ec. apply fold_better_elem. }
  assert (not_profile (fold_left better rest r0) = false) as Hnp.
  { eapply filter_empty; [exact Hinv | by rewrite <- Ec]. }
  apply collect_entries in Hin as [[rk Hrk] | Hrk]; rewrite Hrk in Hnp;
    [| discriminate].
  exists (fold_left better rest r0), rk. cbn [reduce]. rewrite Hrk. by cbn.
Qed.

(** What the [try] block does to the table. *)
Lemma verify_accept env message db matchedRank levelDetected r lvl :
  outcome (verify env message db matchedRank levelDetected) = Accept r lvl →
  r = matchedRank ∧ lvl = levelDetected
  ∧ has_higher_rank (db !! author_id message) matchedRank = false
  ∧ db_after (verify env message db matchedRank levelDetected) =
      upsertVerification (now env)
        {| d_discord_id := author_id message;
           d_username := author_username message;
           d_rank_name := rank_name matchedRank;
           d_level_detected := levelDetected;
           d_role_id_assigned := role_id matchedRank |} db.
Proof.
  unfold Pipeline.verify, getVerification.
  destruct (fetch_member env) as [|[member|]]; try discriminate.
  destruct (db_read_fails env); try discriminate.
  destruct (has_higher_rank _ _) eqn:Eh; try discriminate.
  destruct (assign_fails env); try discriminate.
  destruct (db_write_fails env); try discriminate.
  simpl. by intros [= <- <-].
Qed.


(** A run either ends before the [try] block, leaving the table as it was,
    or runs the [try] block on the best match. *)
Lemma handler_cases env message db :
  (db_after (handleMessageCreate env message db) = db
   ∧ ∀ r lvl, outcome (handleMessageCreate env message db) ≠ Accept r lvl)
  ∨ ∃ bestMatch matchedRank,
      reduce (collect (image_attachments message)) = Some bestMatch
      ∧ r_rank bestMatch = Some matchedRank
      ∧ handleMessageCreate env message db =
          verify env message db matchedRank
                 (level_or_min (r_level bestMatch) matchedRank).
Proof.
  unfold Pipeline.handleMessageCreate.
  destruct (author_bot message); [by left |].
  destruct (negb _); [by left |].
  cbv zeta.
  destruct (length (image_attachments message) =? 0)%nat; [by left |].
  destruct (0 <? _)%nat; [by left |].
  destruct (_ || _); [by left |].
  destruct (reduce _) as [bestMatch|]; [| by left].
  destruct (r_rank bestMatch) as [matchedRank|] eqn:Er; [| by left].
  right. by exists bestMatch, matchedRank.
Qed.

Lemma handler_accept env message db r lvl :
  outcome (handleMessageCreate env message db) = Accept r lvl →
  ∃ bestMatch,
    reduce (collect (image_attachments message)) = Some bestMatch
    ∧ r_rank bestMatch = Some r
    ∧ lvl = level_or_min (r_level bestMatch) r
    ∧ has_higher_rank (db !! author_id message) r = false
    ∧ db_after (handleMessageCreate env message db) =
        upsertVerification (now env)
          {| d_discord_id := author_id message;
             d_username := author_username message;
             d_rank_name := rank_name r;
             d_level_detected := lvl;
             d_role_id_assigned := role_id r |} db.
Proof.
  intros Hacc.
  destruct (handler_cases env message db)
    as [[_ Hno] | (bestMatch & matchedRank & Hred & Hrk & Heq)].
  - by destruct (Hno r lvl).
  - rewrite Heq in Hacc |- *.
    apply verify_accept in Hacc as (-> & -> & Hh & Hdb).
    by exists bestMatch.
Qed.

Lemma upsert_lookup now data db :
  ∃ new, upsertVerification now data db = <[d_discord_id data := new]> db
         ∧ v_rank_name new = d_rank_name data
         ∧ v_level_detected new = d_level_detected data
         ∧ v_role_id_assigned new = d_role_id_assigned data.
Proof.
  unfold upsertVerification.
  destruct (db !! d_discord_id data); eexists; by split.
Qed.

Local Abbreviation prior_rank_higher := (prior_rank_higher getRankByName).

Lemma has_higher_rank_spec db userId matchedRank :
  has_higher_rank (db !! userId) matchedRank = true
  ↔ prior_rank_higher db userId matchedRank.
Proof.
  unfold Pipeline.has_higher_rank, Pipeline.prior_rank_higher. split.
  - destruct (db !! userId) as [prior|]; [| discriminate].
    destruct (getRankByName (v_rank_name prior)) as [existingRank|] eqn:E;
      [| discriminate].
    intros H. exists prior, existingRank. repeat split; [done |].
    by apply Z.gtb_gt.
  - intros (prior & existingRank & -> & -> & H). by apply Z.gtb_gt.
Qed.



(** C3: a submission with an attachment that is classified as not a profile
    screen ends in [RejectInvalid]: the invalid-format notice is sent, no
    role is granted and the table is not written, whatever the other
    attachments matched. *)
Theorem invalid_attachment_rejects_submission env message db attachment :
  author_bot message = false →
  channel_id message = RANK_CHANNEL_ID →
  attachment ∈ image_attachments message →
  isProfile (processImage attachment) = Some false →
  outcome (handleMessageCreate env message db) = RejectInvalid
  ∧ effects (handleMessageCreate env message db) =
      [SendErrorDM (author_id message) InvalidFormat;
       LogAction "ocr_processed" false; DeleteMessage]
  ∧ db_after (handleMessageCreate env message db) = db.
Proof.
  intros Hbot Hch Hin Hp. unfold Pipeline.handleMessageCreate.
  rewrite Hbot, Hch, String.eqb_refl. cbn [negb]. cbv zeta.
  destruct (image_attachments message) as [|a0 atts] eqn:Ea;
    [by apply elem_of_nil in Hin |].
  cbn [length Nat.eqb].
  destruct (collect_keeps_invalid _ _ Hin Hp) as (r & Hr & Hnp).
  by rewrite (filter_nonempty not_profile _ r Hr Hnp).
Qed.

(** C5, as amended: a submission (at least one image attachment) in which
    no attachment is classified as not a profile screen and no attachment
    produced a rank match ends in [RejectUnreadable]: the unreadable notice
    is sent, no role is granted and the table is not written. *)
Theorem no_match_is_unreadable env message db :
  author_bot message = false →
  channel_id message = RANK_CHANNEL_ID →
  image_attachments message ≠ [] →
  (∀ a, a ∈ image_attachments message → isProfile (processImage a) ≠ Some false) →
  (∀ a, a ∈ image_attachments message → success (processImage a) = false) →
  outcome (handleMessageCreate env message db) = RejectUnreadable
  ∧ effects (handleMessageCreate env message db) =
      [SendErrorDM (author_id message) Unreadable;
       LogAction "ocr_processed" false; DeleteMessage]
  ∧ db_after (handleMessageCreate env message db) = db.
Proof.
  intros Hbot Hch Hne Hp Hs. unfold Pipeline.handleMessageCreate.
  rewrite Hbot, Hch, String.eqb_refl. cbn [negb]. cbv zeta.
  rewrite (collect_nothing _ Hp Hs).
  by destruct (image_attachments message).
Qed.

(** C9: when a record of the user exists but its rank name resolves to no
    tier, the submission with a selected best match is accepted whatever
    the matched rank is: the role is granted and the record is rewritten. *)
Theorem unresolved_stored_rank_is_accepted env message db member prior :
  author_bot message = false →
  channel_id message = RANK_CHANNEL_ID →
  List.filter not_profile (collect (image_attachments message)) = [] →
  existsb matched (collect (image_attachments message)) = true →
  fetch_member env = Returns (Some member) →
  db_read_fails env = false →
  assign_fails env = false →
  db_write_fails env = false →
  db !! author_id message = Some prior →
  getRankByName (v_rank_name prior) = None →
  ∃ bestMatch matchedRank new,
    reduce (collect (image_attachments message)) = Some bestMatch
    ∧ r_rank bestMatch = Some matchedRank
    ∧ outcome (handleMessageCreate env message db) =
        Accept matchedRank (level_or_min (r_level bestMatch) matchedRank)
    ∧ AssignRankRole member (tier matchedRank)
        ∈ effects (handleMessageCreate env message db)
    ∧ db_after (handleMessageCreate env message db)
        = <[author_id message := new]> db
    ∧ v_rank_name new = rank_name matchedRank
    ∧ v_level_detected new = level_or_min (r_level bestMatch) matchedRank
    ∧ v_role_id_assigned new = role_id matchedRank.
Proof.
  intros Hbot Hch Hinv Hm Hmem Hrd Has Hwr Hprior Hnone.
  destruct (handler_selects env message db Hbot Hch Hinv Hm)
    as (bestMatch & matchedRank & Hred & Hrk & ->).
  unfold Pipeline.verify, getVerification, Pipeline.has_higher_rank.
  rewrite Hmem, Hrd, Has, Hwr, Hprior, Hnone. cbn [outcome effects db_after].
  match goal with |- context [upsertVerification ?n ?d ?m] =>
    destruct (upsert_lookup n d m) as (new & -> & Hn & Hl & Hr) end.
  exists bestMatch, matchedRank, new.
  repeat split; try done. apply elem_of_cons. by left.
Qed.

(** C10: when a submission is accepted and its best match carries no level
    (absent or zero), the record written for the user has [level_detected]
    equal to the [level_min] of the accepted tier. *)
Theorem missing_level_is_stored_as_level_min env message db bestMatch matchedRank lvl :
  outcome (handleMessageCreate env message db) = Accept matchedRank lvl →
  reduce (collect (image_attachments message)) = Some bestMatch →
  r_level bestMatch = None ∨ r_level bestMatch = Some 0%Z →
  lvl = level_min matchedRank
  ∧ ∃ new, db_after (handleMessageCreate env message db) !! author_id message
             = Some new
           ∧ v_level_detected new = level_min matchedRank.
Proof.
  intros Hacc Hred Hlvl.
  apply handler_accept in Hacc as (best & Hred' & Hrk & Hl & _ & ->).
  rewrite Hred in Hred'. injection Hred' as <-.
  assert (lvl = level_min matchedRank) as Hmin.
  { rewrite Hl. unfold level_or_min. by destruct Hlvl as [-> | ->]. }
  split; [done |].
  match goal with |- context [upsertVerification ?n ?d ?m] =>
    destruct (upsert_lookup n d m) as (new & -> & _ & Hn & _) end.
  exists new. cbn [d_discord_id]. rewrite lookup_insert_eq.
  split; [done |]. by rewrite Hn.
Qed.

End HandlerFacts.

(* ===================================================================== *)
(** ** The handler on the sample data *)
(* ===================================================================== *)

Section Scenarios.
Import Regex Classifier Database Pipeline Fixtures.

(** Stored rank Gold, best match Bronze: no upgrade. *)
Example gold_then_bronze :
  outcome (handle all_fine (submission [screenshot text_bronze]) db_gold70)
  = RejectNoUpgrade.
Proof. reflexivity. Qed.

(** Stored rank Gold, best match Platinum: accepted. *)
Example gold_then_platinum :
  outcome (handle all_fine (submission [screenshot text_platinum]) db_gold70)
  = Accept rk_platinum 93.
Proof. reflexivity. Qed.

(** No guild member: nothing is granted. *)
Example member_missing :
  outcome (handle {| now := 1; fetch_member := Returns None;
                     db_read_fails := false; assign_fails := false;
                     db_write_fails := false |}
                  (submission [screenshot text_platinum]) db_gold70)
  = MemberNotFound.
Proof. reflexivity. Qed.

(** A message without image attachment is skipped without a notice. *)
Example no_image_is_ignored :
  handle all_fine (submission []) db_gold70
  = {| outcome := Ignored; effects := []; db_after := db_gold70 |}.
Proof. reflexivity. Qed.

(** A confidence below zero is outside the range of the matcher; the scan
    would not replace it by a later confidence of zero. *)
Example negative_confidence_is_kept :
  reduce [ {| r_success := true; r_rank := Some rk_bronze; r_level := None;
              r_confidence := Some (-3)%Q; r_isProfile := None |};
           {| r_success := true; r_rank := Some rk_gold55; r_level := None;
              r_confidence := Some 0%Q; r_isProfile := None |} ]
  = Some {| r_success := true; r_rank := Some rk_bronze; r_level := None;
            r_confidence := Some (-3)%Q; r_isProfile := None |}.
Proof. reflexivity. Qed.

(** Bronze and Platinum tie at confidence 95: Bronze, seen first, is kept. *)
Example tie_keeps_first :
  reduce tied_results = Some (entry rk_bronze).
Proof. reflexivity. Qed.

Lemma best_match_is_first_of_greatest_witness :
  ∃ i bestMatch cb,
    reduce tied_results = Some bestMatch
    ∧ tied_results !! i = Some bestMatch
    ∧ r_confidence bestMatch = Some cb
    ∧ (∀ j r c, tied_results !! j = Some r → r_confidence r = Some c → (c <= cb)%Q)
    ∧ (∀ j r c, (j < i)%nat →
         tied_results !! j = Some r → r_confidence r = Some c → (c < cb)%Q).
Proof.
  apply (best_match_is_first_of_greatest tied_results).
  - discriminate.
  - repeat constructor; eexists; (split; [reflexivity | discriminate]).
Defined.


Lemma invalid_attachment_rejects_submission_witness :
  outcome (handle all_fine
             (submission [screenshot text_menu; screenshot text_platinum]) ∅)
    = RejectInvalid
  ∧ effects (handle all_fine
               (submission [screenshot text_menu; screenshot text_platinum]) ∅)
    = [SendErrorDM "user-1" InvalidFormat;
       LogAction "ocr_processed" false; DeleteMessage]
  ∧ db_after (handle all_fine
                (submission [screenshot text_menu; screenshot text_platinum]) ∅)
    = ∅.
Proof.
  apply (invalid_attachment_rejects_submission
           RANK_CHANNEL_ID matchRank getRankByName all_fine
           (submission [screenshot text_menu; screenshot text_platinum]) ∅
           (screenshot text_menu)).
  - reflexivity.
  - reflexivity.
  - left.
  - reflexivity.
Defined.

Lemma no_match_is_unreadable_witness :
  outcome (handle all_fine (submission [screenshot text_blurry]) db_gold70)
    = RejectUnreadable
  ∧ effects (handle all_fine (submission [screenshot text_blurry]) db_gold70)
    = [SendErrorDM "user-1" Unreadable;
       LogAction "ocr_processed" false; DeleteMessage]
  ∧ db_after (handle all_fine (submission [screenshot text_blurry]) db_gold70)
    = db_gold70.
Proof.
  apply (no_match_is_unreadable
           RANK_CHANNEL_ID matchRank getRankByName all_fine
           (submission [screenshot text_blurry]) db_gold70).
  - reflexivity.
  - reflexivity.
  - discriminate.
  - intros a Ha. apply list_elem_of_singleton in Ha as ->. discriminate.
  - intros a Ha. apply list_elem_of_singleton in Ha as ->. reflexivity.
Defined.

(** C5 as stated fails: no attachment of this submission produced a rank
    match, and the run ends in [RejectInvalid], not in [RejectUnreadable]. *)
Lemma no_match_with_invalid_is_not_unreadable :
  (∀ a, a ∈ image_attachments (submission [screenshot text_menu]) →
        success (processImage matchRank a) = false)
  ∧ outcome (handle all_fine (submission [screenshot text_menu]) ∅) = RejectInvalid
  ∧ outcome (handle all_fine (submission [screenshot text_menu]) ∅) ≠ RejectUnreadable.
Proof.
  split; [| split; [reflexivity | discriminate]].
  intros a Ha. apply list_elem_of_singleton in Ha as ->. reflexivity.
Qed.


Lemma unresolved_stored_rank_is_accepted_witness :
  ∃ bestMatch matchedRank new,
    reduce (collect matchRank (image_attachments (submission [screenshot text_bronze])))
      = Some bestMatch
    ∧ r_rank bestMatch = Some matchedRank
    ∧ outcome (handle all_fine (submission [screenshot text_bronze]) db_retired)
      = Accept matchedRank (level_or_min (r_level bestMatch) matchedRank)
    ∧ AssignRankRole "member-1" (tier matchedRank)
        ∈ effects (handle all_fine (submission [screenshot text_bronze]) db_retired)
    ∧ db_after (handle all_fine (submission [screenshot text_bronze]) db_retired)
      = <["user-1" := new]> db_retired
    ∧ v_rank_name new = rank_name matchedRank
    ∧ v_level_detected new = level_or_min (r_level bestMatch) matchedRank
    ∧ v_role_id_assigned new = role_id matchedRank.
Proof.
  apply (unresolved_stored_rank_is_accepted
           RANK_CHANNEL_ID matchRank getRankByName all_fine
           (submission [screenshot text_bronze]) db_retired "member-1"
           (record "Diamond" 150 "role-diamond"));
    reflexivity.
Defined.

(** The record said Diamond, level 150; it now says Bronze, level 12. *)
Example retired_rank_overwritten :
  v_level_detected <$>
    (db_after (handle all_fine (submission [screenshot text_bronze]) db_retired)
       !! "user-1") = Some 12%Z.
Proof. reflexivity. Qed.

Lemma missing_level_is_stored_as_level_min_witness :
  50%Z = level_min rk_gold_nolevel
  ∧ ∃ new, db_after (handle all_fine (submission [screenshot text_gold]) ∅) !! "user-1"
             = Some new
           ∧ v_level_detected new = level_min rk_gold_nolevel.
Proof.
  apply (missing_level_is_stored_as_level_min
           RANK_CHANNEL_ID matchRank getRankByName all_fine
           (submission [screenshot text_gold]) ∅ (entry rk_gold_nolevel)).
  - reflexivity.
  - reflexivity.
  - by left.
Defined.

End Scenarios.

(* ===================================================================== *)
(** ** The DM cleanup service *)
(* ===================================================================== *)

Section SchedulerFacts.
Import DMCleanup.

Implicit Types (s : State) (m : string) (t : nat) (e : Event).

(** [clearTimeout] of every entry leaves the timers no entry holds. *)
Lemma cleanup_timers_lookup (reg : gmap string ScheduledDeletion)
    (ts : gmap nat Timer) t tm :
  map_fold (fun _ scheduled ts => delete (timeout scheduled) ts) ts reg !! t = Some tm
  ↔ ts !! t = Some tm ∧ ∀ m sd, reg !! m = Some sd → timeout sd ≠ t.
Proof.
  apply (map_fold_weak_ind
           (fun r reg => r !! t = Some tm
                         ↔ ts !! t = Some tm
                           ∧ ∀ m sd, reg !! m = Some sd → timeout sd ≠ t)).
  - split; [intros H; split; [done | intros m sd; by rewrite lookup_empty] | tauto].
  - intros m sd reg' r Hfresh IH. rewrite lookup_delete_Some, IH. split.
    + intros (Hne & Hts & Hreg). split; [done |].
      intros m' sd' Hm'. apply lookup_insert_Some in Hm' as [[<- <-] | [_ Hm']];
        [done | by eapply Hreg].
    + intros (Hts & Hreg). split; [| split; [done |]].
      * eapply Hreg. apply lookup_insert_eq.
      * intros m' sd' Hm'. eapply Hreg. rewrite lookup_insert_ne; [done |].
        intros <-. congruence.
Qed.

Lemma consistent_init : consistent init.
Proof. split; simpl; intros *; by rewrite lookup_empty. Qed.

Lemma consistent_cancel s m : consistent s → consistent (cancelDeletion m s).
Proof.
  intros [Ht He Hd]. unfold cancelDeletion.
  destruct (scheduledDeletions s !! m) as [sd|] eqn:E; [| done].
  split; simpl.
  - intros t tm [_ H]%lookup_delete_Some. eauto.
  - intros m' sd' [_ H]%lookup_delete_Some. eauto.
  - intros m1 m2 sd1 sd2 [_ H1]%lookup_delete_Some [_ H2]%lookup_delete_Some.
    eauto.
Qed.

Lemma consistent_schedule s message :
  consistent s → consistent (scheduleDeletion message s).
Proof.
  intros Hs. unfold scheduleDeletion.
  destruct (negb (isDMBased message)); [done |].
  destruct (consistent_cancel s (id message) Hs) as [Ht He Hd].
  split; simpl.
  - intros t tm [[<- _] | [_ H]]%lookup_insert_Some; [lia |].
    apply Ht in H. lia.
  - intros m sd [[<- <-] | [_ H]]%lookup_insert_Some; simpl; [lia |].
    apply He in H. lia.
  - intros m1 m2 sd1 sd2 H1 H2 Heq.
    apply lookup_insert_Some in H1 as [[<- <-] | [Hn1 H1]];
      apply lookup_insert_Some in H2 as [[<- <-] | [Hn2 H2]]; simpl in *.
    + done.
    + apply He in H2. lia.
    + apply He in H1. lia.
    + eauto.
Qed.

Lemma consistent_step s e : consistent s → consistent (step s e).
Proof.
  intros Hs. destruct e as [message | m | | dt | t | i ok]; simpl.
  - by apply consistent_schedule.
  - by apply consistent_cancel.
  - destruct Hs as [Ht He Hd]. split; simpl.
    + intros t tm [H _]%cleanup_timers_lookup. eauto.
    + intros m sd. by rewrite lookup_empty.
    + intros m1 m2 sd1 sd2. by rewrite lookup_empty.
  - destruct Hs as [Ht He Hd]. by split.
  - unfold fire. destruct (timers s !! t) as [tm|] eqn:E; [| done].
    destruct (t_due tm <=? clock s)%N; [| done].
    destruct Hs as [Ht He Hd]. split; simpl; [| done | done].
    intros t' tm' [_ H]%lookup_delete_Some. eauto.
  - unfold settle. destruct (awaiting s !! i) as [message|]; [| done].
    destruct Hs as [Ht He Hd]. destruct ok; split; simpl; try done.
    + intros m' sd' [_ H]%lookup_delete_Some. eauto.
    + intros m1 m2 sd1 sd2 [_ H1]%lookup_delete_Some [_ H2]%lookup_delete_Some.
      eauto.
    + intros m' sd' [_ H]%lookup_delete_Some. eauto.
    + intros m1 m2 sd1 sd2 [_ H1]%lookup_delete_Some [_ H2]%lookup_delete_Some.
      eauto.
Qed.

Lemma consistent_run evs : ∀ s, consistent s → consistent (run evs s).
Proof.
  induction evs as [|e evs IH]; intros s Hs; [done |].
  apply IH. by apply consistent_step.
Qed.

Lemma cancel_entry_gone s m : scheduledDeletions (cancelDeletion m s) !! m = None.
Proof.
  unfold cancelDeletion.
  destruct (scheduledDeletions s !! m) eqn:E; simpl; [apply lookup_delete_eq | done].
Qed.

Lemma cancel_entry_other s m m' :
  m ≠ m' →
  scheduledDeletions (cancelDeletion m s) !! m' = scheduledDeletions s !! m'.
Proof.
  intros Hne. unfold cancelDeletion.
  destruct (scheduledDeletions s !! m) eqn:E; simpl; [| done].
  by apply lookup_delete_ne.
Qed.

Lemma cancel_timer_was_pending s m t tm :
  timers (cancelDeletion m s) !! t = Some tm → timers s !! t = Some tm.
Proof.
  unfold cancelDeletion.
  destruct (scheduledDeletions s !! m) eqn:E; simpl; [| done].
  by intros [_ H]%lookup_delete_Some.
Qed.

Lemma cancel_rest s m :
  awaiting (cancelDeletion m s) = awaiting s
  ∧ delete_calls (cancelDeletion m s) = delete_calls s
  ∧ clock (cancelDeletion m s) = clock s
  ∧ next_timeout (cancelDeletion m s) = next_timeout s.
Proof.
  unfold cancelDeletion. by destruct (scheduledDeletions s !! m).
Qed.

(** Under [tracked], two pending timers for one handle are the same timer. *)
Lemma tracked_at_most_one s m t t' :
  tracked s m → live_for s m t → live_for s m t' → t = t'.
Proof.
  intros [Hheld _] Ht Ht'.
  destruct (Hheld t Ht) as (sd & Hsd & <- & _).
  destruct (Hheld t' Ht') as (sd' & Hsd' & <- & _).
  congruence.
Qed.

Lemma tracked_init m : tracked init m.
Proof.
  split.
  - intros t (tm & H & _). simpl in H. by rewrite lookup_empty in H.
  - intros _ t (tm & H & _). simpl in H. by rewrite lookup_empty in H.
Qed.

Lemma cancel_live s m x t :
  live_for (cancelDeletion x s) m t → live_for s m t.
Proof.
  intros (tm & Ht & Hid). exists tm. split; [| done].
  by eapply cancel_timer_was_pending.
Qed.

Lemma held_after_cancel s m x :
  (∀ t, live_for s m t → held_for s m t) →
  ∀ t, live_for (cancelDeletion x s) m t → held_for (cancelDeletion x s) m t.
Proof.
  intros Hheld t Ht. pose proof Ht as (tm & Htm & Hid).
  destruct (Hheld t (cancel_live s m x t Ht)) as (sd & Hsd & Hto & _).
  exists sd. split; [| split; [done | by exists tm]].
  destruct (decide (x = m)) as [-> | Hne]; [| by rewrite cancel_entry_other].
  unfold cancelDeletion in Htm. rewrite Hsd in Htm. simpl in Htm.
  rewrite Hto in Htm. by rewrite lookup_delete_eq in Htm.
Qed.

(** After [cancel m] no timer for [m] is pending, if all were held. *)
Lemma cancel_clears_timers s m :
  (∀ t, live_for s m t → held_for s m t) →
  ∀ t, ¬ live_for (cancelDeletion m s) m t.
Proof.
  intros Hheld t Ht.
  destruct (held_after_cancel s m m Hheld t Ht) as (sd & Hsd & _).
  by rewrite cancel_entry_gone in Hsd.
Qed.

Lemma tracked_cancel s m x :
  tracked s m → tracked (cancelDeletion x s) m.
Proof.
  intros [Hheld Hquiet]. split.
  - by apply held_after_cancel.
  - destruct (cancel_rest s x) as (-> & _). intros Hin t Ht.
    eapply Hquiet; [done |]. by eapply cancel_live.
Qed.

Lemma tracked_schedule s m message :
  tracked s m →
  (id message = m → isDMBased message = true → m ∉ id <$> awaiting s) →
  tracked (scheduleDeletion message s) m.
Proof.
  intros Htr Hdisc. unfold scheduleDeletion.
  destruct (isDMBased message) eqn:Edm; [| done]. cbn [negb]. cbv zeta.
  pose proof (tracked_cancel s m (id message) Htr) as [Hheld Hquiet].
  destruct (cancel_rest s (id message)) as (Haw & _).
  set (s1 := cancelDeletion (id message) s) in *.
  split.
  - intros t (tm & Htm & Hid). simpl in Htm.
    apply lookup_insert_Some in Htm as [[<- <-] | [Hne Htm]]; simpl in Hid.
    + eexists. simpl. rewrite Hid, lookup_insert_eq.
      split; [done |]. split; [done |]. by rewrite lookup_insert_eq.
    + destruct (Hheld t) as (sd & Hsd & Hto & _); [by exists tm |].
      destruct (decide (id message = m)) as [Heq | Hne'].
      * rewrite <- Heq in Hsd. unfold s1 in Hsd.
        by rewrite cancel_entry_gone in Hsd.
      * exists sd. simpl. rewrite lookup_insert_ne by done.
        split; [done |]. split; [done |]. rewrite lookup_insert_ne by done.
        by exists tm.
  - simpl. rewrite Haw. intros Hin t (tm & Htm & Hid). simpl in Htm.
    apply lookup_insert_Some in Htm as [[<- <-] | [Hne Htm]]; simpl in Hid.
    + by apply Hdisc.
    + rewrite <- Haw in Hin. eapply Hquiet; [done |]. by exists tm.
Qed.

Lemma tracked_step s m e :
  tracked s m →
  match e with
  | Schedule message =>
      id message = m → isDMBased message = true → m ∉ id <$> awaiting s
  | _ => True
  end →
  tracked (step s e) m.
Proof.
  intros Htr Hdisc. destruct e as [message | x | | dt | t0 | i ok]; simpl.
  - by apply tracked_schedule.
  - by apply tracked_cancel.
  - destruct Htr as [Hheld Hquiet].
    assert (∀ t, ¬ live_for (cleanup s) m t) as Hnone.
    { intros t (tm & Htm & Hid). simpl in Htm.
      apply cleanup_timers_lookup in Htm as [Htm Hfree].
      destruct (Hheld t) as (sd & Hsd & Hto & _); [by exists tm |].
      by eapply Hfree. }
    split; [intros t Ht; by destruct (Hnone t) | intros _; exact Hnone].
  - exact Htr.
  - unfold fire. destruct (timers s !! t0) as [tm0|] eqn:E0; [| done].
    destruct (t_due tm0 <=? clock s)%N; [| done].
    destruct Htr as [Hheld Hquiet].
    assert (Hlive : ∀ t, live_for
              {| scheduledDeletions := scheduledDeletions s;
                 timers := delete t0 (timers s);
                 next_timeout := next_timeout s; clock := clock s;
                 awaiting := awaiting s ++ [t_message tm0];
                 delete_calls := id (t_message tm0) :: delete_calls s |} m t
              → t ≠ t0 ∧ live_for s m t).
    { intros t (tm & Htm & Hid). simpl in Htm.
      apply lookup_delete_Some in Htm as [Hne Htm]. split; [done | by exists tm]. }
    split.
    + intros t Ht. destruct (Hlive t Ht) as [Hne Hl].
      destruct (Hheld t Hl) as (sd & Hsd & Hto & Hsome).
      exists sd. simpl. split; [done |]. split; [done |].
      by rewrite lookup_delete_ne.
    + simpl. rewrite fmap_app. intros [Hin | Hin]%elem_of_app t Ht;
        destruct (Hlive t Ht) as [Hne Hl].
      * by eapply Hquiet.
      * apply list_elem_of_singleton in Hin.
        apply Hne. symmetry.
        apply (tracked_at_most_one s m t0 t); [by split | | done].
        by exists tm0.
  - unfold settle. destruct (awaiting s !! i) as [message|] eqn:Ei; [| done].
    destruct Htr as [Hheld Hquiet].
    assert (Hmem : message ∈ awaiting s) by by eapply list_elem_of_lookup_2.
    split.
    + intros t (tm & Htm & Hid). simpl in Htm.
      destruct (Hheld t) as (sd & Hsd & Hto & Hsome); [by exists tm |].
      destruct (decide (id message = m)) as [Heq | Hne].
      * exfalso. eapply (Hquiet); [| by exists tm].
        rewrite <- Heq. by apply list_elem_of_fmap_2.
      * exists sd. simpl. split; [| done].
        destruct ok; by rewrite lookup_delete_ne.
    + simpl. intros Hin t (tm & Htm & Hid). simpl in Htm.
      eapply Hquiet; [| by exists tm].
      apply list_elem_of_fmap in Hin as (x & -> & Hx).
      apply list_elem_of_fmap_2.
      eapply elem_of_sublist; [exact Hx | apply sublist_delete].
Qed.

Lemma tracked_run evs : ∀ s m,
  tracked s m → respects m evs s → tracked (run evs s) m.
Proof.
  induction evs as [|e evs IH]; intros s m Htr Hr; [done |].
  destruct Hr as [He Hr]. apply IH; [| done]. by apply tracked_step.
Qed.

(** [schedule] on a state whose pending timers for the handle are all held:
    the entry is replaced by one with a new timer, which is then the only
    pending timer for the handle. *)
Lemma schedule_replaces s message :
  isDMBased message = true →
  consistent s →
  (∀ t, live_for s (id message) t → held_for s (id message) t) →
  ∃ new,
    scheduledDeletions (scheduleDeletion message s) !! id message = Some new
    ∧ timeout new = next_timeout s
    ∧ deleteAt new = (clock s + DELETE_AFTER_MS)%N
    ∧ timers (scheduleDeletion message s) !! timeout new
      = Some {| t_message := message; t_due := (clock s + DELETE_AFTER_MS)%N |}
    ∧ (∀ t, live_for (scheduleDeletion message s) (id message) t ↔ t = timeout new)
    ∧ (∀ old, scheduledDeletions s !! id message = Some old →
              timers (scheduleDeletion message s) !! timeout old = None
              ∧ timeout new ≠ timeout old).
Proof.
  intros Hdm Hs Hheld. unfold scheduleDeletion. rewrite Hdm. cbn [negb]. cbv zeta.
  destruct (cancel_rest s (id message)) as (Haw & Hdc & Hck & Hnx).
  rewrite Hnx, Hck.
  exists {| messageId := id message; channelId := channel_id message;
            deleteAt := (clock s + DELETE_AFTER_MS)%N;
            timeout := next_timeout s |}.
  cbn [scheduledDeletions timers timeout deleteAt].
  rewrite !lookup_insert_eq.
  split; [done |]. split; [done |]. split; [done |]. split; [done |]. split.
  - intros t. split.
    + intros (tm & Htm & Hid). cbn [timers] in Htm.
      apply lookup_insert_Some in Htm as [[<- _] | [_ Htm]]; [done |].
      destruct (cancel_clears_timers s (id message) Hheld t). by exists tm.
    + intros ->. eexists. cbn [timers]. by rewrite lookup_insert_eq.
  - intros old Hold.
    assert (timeout old < next_timeout s) as Hlt by by eapply entries_fresh.
    split; [| lia].
    rewrite lookup_insert_ne by lia.
    unfold cancelDeletion. rewrite Hold. cbn [timers]. apply lookup_delete_eq.
Qed.

Lemma schedule_keeps_held s message :
  isDMBased message = true →
  consistent s →
  (∀ t, live_for s (id message) t → held_for s (id message) t) →
  ∀ t, live_for (scheduleDeletion message s) (id message) t
       → held_for (scheduleDeletion message s) (id message) t.
Proof.
  intros Hdm Hs Hheld t Ht.
  destruct (schedule_replaces s message Hdm Hs Hheld)
    as (new & Hnew & _ & _ & Htm & Hone & _).
  apply Hone in Ht as ->. exists new. split; [done |]. split; [done |].
  by rewrite Htm.
Qed.

(** [schedule] replaces the entry of the handle by one that holds a new
    pending timer, and clears the timer of the entry it replaces. *)
Lemma schedule_entry s message :
  isDMBased message = true →
  consistent s →
  ∃ new,
    scheduledDeletions (scheduleDeletion message s) !! id message = Some new
    ∧ timeout new = next_timeout s
    ∧ (∀ t, held_for (scheduleDeletion message s) (id message) t ↔ t = timeout new)
    ∧ (∀ old, scheduledDeletions s !! id message = Some old →
              timeout new ≠ timeout old
              ∧ timers (scheduleDeletion message s) !! timeout old = None).
Proof.
  intros Hdm Hs. unfold scheduleDeletion. rewrite Hdm. cbn [negb]. cbv zeta.
  destruct (cancel_rest s (id message)) as (Haw & Hdc & Hck & Hnx).
  rewrite Hnx.
  exists {| messageId := id message; channelId := channel_id message;
            deleteAt := (clock s + DELETE_AFTER_MS)%N;
            timeout := next_timeout s |}.
  cbn [scheduledDeletions timeout]. rewrite lookup_insert_eq.
  split; [done |]. split; [done |]. split.
  - intros t. unfold held_for. cbn [scheduledDeletions timers].
    rewrite lookup_insert_eq. split.
    + by intros (sd & [= <-] & <- & _).
    + intros ->. eexists. split; [done |]. split; [done |].
      by rewrite lookup_insert_eq.
  - intros old Hold.
    assert (timeout old < next_timeout s) as Hlt by by eapply entries_fresh.
    split; [lia |]. cbn [timers].
    rewrite lookup_insert_ne by lia.
    unfold cancelDeletion. rewrite Hold. cbn [timers]. apply lookup_delete_eq.
Qed.

Lemma held_functional s m t t' : held_for s m t → held_for s m t' → t = t'.
Proof. intros (sd & Hsd & <- & _) (sd' & Hsd' & <- & _). congruence. Qed.

Lemma held_distinct s m m' t :
  consistent s → held_for s m t → held_for s m' t → m = m'.
Proof.
  intros Hs (sd & Hsd & Hto & _) (sd' & Hsd' & Hto' & _).
  eapply entries_distinct; [done | done | done | congruence].
Qed.

(** X24: at every point the registry holds at most one pending timer for a
    handle, and none for two handles.  [schedule m] on a handle with an
    entry clears the timer of that entry and replaces the entry; after two
    [schedule m] in a row the registry holds for [m] the timer of the second
    call only, the first being cleared.  While no [schedule m] overlaps a
    suspended deletion of [m], these are all the pending timers there are
    for [m]: at most one at every point, and exactly the second after two
    calls. *)
Theorem one_live_timer_per_handle evs message :
  isDMBased message = true →
  (∀ m t t', held_for (run evs init) m t → held_for (run evs init) m t' → t = t')
  ∧ (∀ m m' t, held_for (run evs init) m t → held_for (run evs init) m' t → m = m')
  ∧ ∃ first second,
      scheduledDeletions (scheduleDeletion message (run evs init)) !! id message
        = Some first
      ∧ scheduledDeletions (schedule_twice message (run evs init)) !! id message
        = Some second
      ∧ timeout first ≠ timeout second
      ∧ timers (schedule_twice message (run evs init)) !! timeout first = None
      ∧ (∀ t, held_for (schedule_twice message (run evs init)) (id message) t
              ↔ t = timeout second)
      ∧ (∀ old,
           scheduledDeletions (run evs init) !! id message = Some old →
           timeout first ≠ timeout old
           ∧ timers (scheduleDeletion message (run evs init)) !! timeout old = None)
      ∧ (respects (id message) evs init →
           (∀ t t', live_for (run evs init) (id message) t →
                    live_for (run evs init) (id message) t' → t = t')
           ∧ (∀ t, live_for (scheduleDeletion message (run evs init)) (id message) t
                   ↔ t = timeout first)
           ∧ (∀ t, live_for (schedule_twice message (run evs init)) (id message) t
                   ↔ t = timeout second)).
Proof.
  intros Hdm.
  pose proof (consistent_run evs init consistent_init) as Hs.
  pose proof (consistent_schedule _ message Hs) as Hs1.
  split; [intros m t t'; apply held_functional |].
  split; [intros m m' t; by apply held_distinct |].
  destruct (schedule_entry _ message Hdm Hs) as (first & Hfirst & Hto1 & _ & Hold1).
  destruct (schedule_entry _ message Hdm Hs1) as (second & Hsecond & Hto2 & Hheld2 & Hold2).
  destruct (Hold2 first Hfirst) as [Hne Hgone].
  exists first, second. unfold schedule_twice.
  split; [done |]. split; [done |]. split; [done |]. split; [done |].
  split; [done |]. split; [by apply Hold1 |].
  intros Hr.
  pose proof (tracked_run evs init (id message) (tracked_init _) Hr) as Htr.
  pose proof Htr as [Hheld _].
  destruct (schedule_replaces _ message Hdm Hs Hheld)
    as (new & Hnew & _ & _ & _ & Hone & _).
  pose proof (schedule_keeps_held _ message Hdm Hs Hheld) as Hheld1.
  destruct (schedule_replaces _ message Hdm Hs1 Hheld1)
    as (new2 & Hnew2 & _ & _ & _ & Hone2 & _).
  assert (new = first) as -> by congruence.
  assert (new2 = second) as -> by congruence.
  split; [| by split].
  intros t t'. by apply tracked_at_most_one.
Qed.

Lemma clock_step s e : (clock s <= clock (step s e))%N.
Proof.
  destruct e as [message | x | | dt | t0 | i ok]; simpl; try lia.
  - unfold scheduleDeletion. destruct (negb _); [lia |]. simpl.
    destruct (cancel_rest s (id message)) as (_ & _ & -> & _). lia.
  - destruct (cancel_rest s x) as (_ & _ & -> & _). lia.
  - unfold fire. destruct (timers s !! t0); [| lia].
    destruct (_ <=? _)%N; simpl; lia.
  - unfold settle. destruct (awaiting s !! i); simpl; lia.
Qed.

Lemma clock_run evs : ∀ s, (clock s <= clock (run evs s))%N.
Proof.
  induction evs as [|e evs IH]; intros s; simpl; [lia |].
  pose proof (clock_step s e). pose proof (IH (step s e)). lia.
Qed.

Lemma not_scheduling m message :
  schedules m (Schedule message) = false →
  id message = m → isDMBased message = true → False.
Proof.
  simpl. intros H <- Hdm. rewrite Hdm, String.eqb_refl in H. discriminate.
Qed.

Lemma attempts_cons m x (l : list string) :
  x ≠ m → length (List.filter (String.eqb m) (x :: l))
          = length (List.filter (String.eqb m) l).
Proof.
  intros Hne. simpl. destruct (String.eqb m x) eqn:E; [| done].
  apply String.eqb_eq in E. congruence.
Qed.

(** Between [schedule m] and the time its timer is due, events other than
    [schedule m] make no deletion attempt on [m] and keep its timers held. *)
Lemma waiting_step s m D e :
  schedules m e = false →
  (clock s < D)%N →
  m ∉ id <$> awaiting s →
  (∀ t, live_for s m t → held_for s m t) →
  not_due_before s m D →
  (m ∉ id <$> awaiting (step s e))
  ∧ (∀ t, live_for (step s e) m t → held_for (step s e) m t)
  ∧ not_due_before (step s e) m D
  ∧ attempts (step s e) m = attempts s m.
Proof.
  intros Hns Hck Hq Hheld Hdue.
  assert (tracked (step s e) m) as [Hheld' _].
  { apply tracked_step; [by split |].
    destruct e; done. }
  split; [| split; [done |]].
  - destruct e as [message | x | | dt | t0 | i ok]; simpl; try done.
    + unfold scheduleDeletion. destruct (negb _); [done |]. simpl.
      by destruct (cancel_rest s (id message)) as (-> & _).
    + by destruct (cancel_rest s x) as (-> & _).
    + unfold fire. destruct (timers s !! t0) as [tm0|] eqn:E0; [| done].
      destruct (t_due tm0 <=? clock s)%N eqn:Ed; [| done]. simpl.
      rewrite fmap_app. intros [Hin | Hin]%elem_of_app; [done |].
      apply list_elem_of_singleton in Hin.
      apply N.leb_le in Ed. pose proof (Hdue t0 tm0 E0 (eq_sym Hin)). lia.
    + unfold settle. destruct (awaiting s !! i) as [message|]; [| done]. simpl.
      intros Hin. apply Hq.
      apply list_elem_of_fmap in Hin as (x & -> & Hx). apply list_elem_of_fmap_2.
      eapply elem_of_sublist; [exact Hx | apply sublist_delete].
  - destruct e as [message | x | | dt | t0 | i ok]; simpl.
    + unfold attempts, scheduleDeletion.
      destruct (isDMBased message) eqn:Edm; cbn [negb]; [| done]. cbv zeta.
      destruct (cancel_rest s (id message)) as (_ & Hdc & _).
      split; [| cbn [delete_calls]; by rewrite Hdc].
      intros t tm Htm Hid. cbn [timers] in Htm.
      apply lookup_insert_Some in Htm as [[_ <-] | [_ Htm]].
      * by destruct (not_scheduling m message).
      * eapply Hdue; [| done]. by eapply cancel_timer_was_pending.
    + unfold attempts. destruct (cancel_rest s x) as (_ & -> & _).
      split; [| done]. intros t tm Htm Hid.
      eapply Hdue; [| done]. by eapply cancel_timer_was_pending.
    + split; [| done]. intros t tm Htm Hid. simpl in Htm.
      apply cleanup_timers_lookup in Htm as [Htm _]. by eapply Hdue.
    + done.
    + unfold fire, attempts. destruct (timers s !! t0) as [tm0|] eqn:E0; [| done].
      destruct (t_due tm0 <=? clock s)%N eqn:Ed; [| done]. cbn [delete_calls].
      split.
      * intros t tm Htm Hid. simpl in Htm.
        apply lookup_delete_Some in Htm as [_ Htm]. by eapply Hdue.
      * apply attempts_cons. intros Hid.
        apply N.leb_le in Ed. pose proof (Hdue t0 tm0 E0 Hid). lia.
    + unfold settle. by destruct (awaiting s !! i).
Qed.

Lemma waiting_run between : ∀ s m D,
  existsb (schedules m) between = false →
  (clock (run between s) < D)%N →
  m ∉ id <$> awaiting s →
  (∀ t, live_for s m t → held_for s m t) →
  not_due_before s m D →
  (∀ t, live_for (run between s) m t → held_for (run between s) m t)
  ∧ attempts (run between s) m = attempts s m.
Proof.
  induction between as [|e evs IH]; intros s m D Hns Hck Hq Hheld Hdue; [done |].
  simpl in Hns. apply orb_false_iff in Hns as [He Hns].
  assert (clock s < D)%N as Hnow.
  { pose proof (clock_run (e :: evs) s). lia. }
  destruct (waiting_step s m D e He Hnow Hq Hheld Hdue) as (Hq' & Hheld' & Hdue' & Hat).
  destruct (IH (step s e) m D Hns Hck Hq' Hheld' Hdue') as [H1 H2].
  split; [done |]. simpl. by rewrite H2.
Qed.

(** Once no timer for [m] is pending and [m] has no entry, this stays so,
    and no deletion of [m] is attempted, until [m] is scheduled again. *)
Lemma cancelled_step s m e :
  schedules m e = false →
  (∀ t, ¬ live_for s m t) →
  scheduledDeletions s !! m = None →
  (∀ t, ¬ live_for (step s e) m t)
  ∧ scheduledDeletions (step s e) !! m = None
  ∧ attempts (step s e) m = attempts s m.
Proof.
  intros Hns Hnone Hreg.
  destruct e as [message | x | | dt | t0 | i ok]; simpl.
  - unfold scheduleDeletion, attempts.
    destruct (isDMBased message) eqn:Edm; cbn [negb]; [| done]. cbv zeta.
    assert (id message ≠ m) as Hne.
    { intros Hid. by destruct (not_scheduling m message). }
    destruct (cancel_rest s (id message)) as (_ & Hdc & _).
    split; [| split].
    + intros t (tm & Htm & Hid). cbn [timers] in Htm.
      apply lookup_insert_Some in Htm as [[_ <-] | [_ Htm]]; [done |].
      apply (Hnone t). exists tm. split; [| done].
      by eapply cancel_timer_was_pending.
    + cbn [scheduledDeletions]. rewrite lookup_insert_ne by done.
      by rewrite cancel_entry_other.
    + cbn [delete_calls]. by rewrite Hdc.
  - unfold attempts. destruct (cancel_rest s x) as (_ & -> & _).
    split; [| split; [| done]].
    + intros t Ht. apply (Hnone t). by eapply cancel_live.
    + destruct (decide (x = m)) as [-> | Hne];
        [apply cancel_entry_gone | by rewrite cancel_entry_other].
  - split; [| split; [apply lookup_empty | done]].
    intros t (tm & Htm & Hid). simpl in Htm.
    apply cleanup_timers_lookup in Htm as [Htm _]. apply (Hnone t). by exists tm.
  - done.
  - unfold fire, attempts. destruct (timers s !! t0) as [tm0|] eqn:E0; [| done].
    destruct (t_due tm0 <=? clock s)%N; [| done]. cbn [delete_calls].
    split; [| split; [done |]].
    + intros t (tm & Htm & Hid). simpl in Htm.
      apply lookup_delete_Some in Htm as [_ Htm]. apply (Hnone t). by exists tm.
    + apply attempts_cons. intros Hid. apply (Hnone t0). by exists tm0.
  - unfold settle. destruct (awaiting s !! i) as [message|]; [| done].
    split; [done |]. split; [| done]. simpl.
    destruct ok; apply lookup_delete_None; by right.
Qed.

Lemma cancelled_run after : ∀ s m,
  existsb (schedules m) after = false →
  (∀ t, ¬ live_for s m t) →
  scheduledDeletions s !! m = None →
  (∀ t, ¬ live_for (run after s) m t)
  ∧ scheduledDeletions (run after s) !! m = None
  ∧ attempts (run after s) m = attempts s m.
Proof.
  induction after as [|e evs IH]; intros s m Hns Hnone Hreg; [done |].
  simpl in Hns. apply orb_false_iff in Hns as [He Hns].
  destruct (cancelled_step s m e He Hnone Hreg) as (Hnone' & Hreg' & Hat).
  destruct (IH (step s e) m Hns Hnone' Hreg') as (H1 & H2 & H3).
  split; [done |]. split; [done |]. simpl. by rewrite H3.
Qed.

(** X25: [schedule m] on a handle with no deletion in flight, followed by
    [cancel m] before the delay has elapsed, removes the entry of [m]; from
    the [schedule] on, and for as long as [m] is not scheduled again, no
    deletion of [m] is attempted and [m] has no pending timer. *)
Theorem cancel_before_ttl_prevents_deletion evs message between after :
  isDMBased message = true →
  respects (id message) evs init →
  id message ∉ id <$> awaiting (run evs init) →
  existsb (schedules (id message)) between = false →
  (clock (run between (scheduleDeletion message (run evs init)))
   < clock (run evs init) + DELETE_AFTER_MS)%N →
  existsb (schedules (id message)) after = false →
  scheduledDeletions (schedule_then_cancel message between (run evs init))
    !! id message = None
  ∧ scheduledDeletions
      (run after (schedule_then_cancel message between (run evs init)))
      !! id message = None
  ∧ (∀ t, ¬ live_for
            (run after (schedule_then_cancel message between (run evs init)))
            (id message) t)
  ∧ attempts (run after (schedule_then_cancel message between (run evs init)))
             (id message)
    = attempts (run evs init) (id message).
Proof.
  intros Hdm Hr Hq Hb Hck Ha.
  pose proof (consistent_run evs init consistent_init) as Hs.
  pose proof (tracked_run evs init (id message) (tracked_init _) Hr) as [Hheld _].
  set (s := run evs init) in *.
  destruct (schedule_replaces s message Hdm Hs Hheld)
    as (new & Hnew & Hto & _ & Htm & Hone & _).
  pose proof (schedule_keeps_held s message Hdm Hs Hheld) as Hheld1.
  destruct (cancel_rest s (id message)) as (Haw & Hdc & _).
  assert (id message ∉ id <$> awaiting (scheduleDeletion message s)) as Hq1.
  { unfold scheduleDeletion. rewrite Hdm. simpl. by rewrite Haw. }
  assert (not_due_before (scheduleDeletion message s) (id message)
            (clock s + DELETE_AFTER_MS)%N) as Hdue1.
  { intros t tm Ht Hid.
    assert (t = timeout new) as -> by (apply Hone; by exists tm).
    rewrite Htm in Ht. injection Ht as <-. simpl. lia. }
  assert (attempts (scheduleDeletion message s) (id message)
          = attempts s (id message)) as Hat1.
  { unfold attempts, scheduleDeletion. rewrite Hdm. simpl. by rewrite Hdc. }
  destruct (waiting_run between _ (id message) _ Hb Hck Hq1 Hheld1 Hdue1)
    as [Hheld2 Hat2].
  unfold schedule_then_cancel.
  set (s2 := run between (scheduleDeletion message s)) in *.
  pose proof (cancel_clears_timers s2 (id message) Hheld2) as Hnone3.
  pose proof (cancel_entry_gone s2 (id message)) as Hreg3.
  destruct (cancelled_run after _ (id message) Ha Hnone3 Hreg3) as (H1 & H2 & H3).
  split; [done |]. split; [done |]. split; [done |].
  rewrite H3. unfold attempts at 1.
  destruct (cancel_rest s2 (id message)) as (_ & -> & _).
  fold (attempts s2 (id message)). by rewrite Hat2.
Qed.

End SchedulerFacts.

(* ===================================================================== *)
(** ** The DM cleanup service on the sample data *)
(* ===================================================================== *)

Section TimerScenarios.
Import DMCleanup TimerFixtures.

(** The timer fires when it is due, and its callback removes the entry. *)
Example fires_after_ttl :
  attempts (run [Schedule dm; Advance DELETE_AFTER_MS; Fire 0; Settle 0 false] init)
           "msg-1" = 1%nat
  ∧ scheduledDeletions
      (run [Schedule dm; Advance DELETE_AFTER_MS; Fire 0; Settle 0 false] init)
      !! "msg-1" = None.
Proof. split; reflexivity. Qed.

(** A channel message is not scheduled. *)
Example only_dms_are_scheduled :
  scheduleDeletion {| id := "msg-3"; channel_id := "general"; isDMBased := false |} init
  = init.
Proof. reflexivity. Qed.

(** A [schedule] that overlaps the suspended deletion of the same message
    loses its entry when that deletion settles; the next [schedule] then
    finds no entry to cancel, and two timers are pending for the message. *)
Example overlapping_schedule_leaves_two_timers :
  live_for (run overlap init) "msg-1" 1
  ∧ live_for (run overlap init) "msg-1" 2
  ∧ ¬ respects "msg-1" overlap init.
Proof.
  split; [| split].
  - eexists. split; reflexivity.
  - eexists. split; reflexivity.
  - intros (_ & _ & _ & H & _). apply H; [done | done |].
    vm_compute. apply list_elem_of_here.
Qed.

Example history_respects : respects (id dm) history init.
Proof. simpl. repeat split; intros; apply not_elem_of_nil. Qed.

Lemma one_live_timer_per_handle_witness :
  (∀ m t t', held_for (run history init) m t → held_for (run history init) m t' → t = t')
  ∧ (∀ m m' t, held_for (run history init) m t → held_for (run history init) m' t → m = m')
  ∧ ∃ first second,
      scheduledDeletions (scheduleDeletion dm (run history init)) !! id dm
        = Some first
      ∧ scheduledDeletions (schedule_twice dm (run history init)) !! id dm
        = Some second
      ∧ timeout first ≠ timeout second
      ∧ timers (schedule_twice dm (run history init)) !! timeout first = None
      ∧ (∀ t, held_for (schedule_twice dm (run history init)) (id dm) t
              ↔ t = timeout second)
      ∧ (∀ old,
           scheduledDeletions (run history init) !! id dm = Some old →
           timeout first ≠ timeout old
           ∧ timers (scheduleDeletion dm (run history init)) !! timeout old = None)
      ∧ (respects (id dm) history init →
           (∀ t t', live_for (run history init) (id dm) t →
                    live_for (run history init) (id dm) t' → t = t')
           ∧ (∀ t, live_for (scheduleDeletion dm (run history init)) (id dm) t
                   ↔ t = timeout first)
           ∧ (∀ t, live_for (schedule_twice dm (run history init)) (id dm) t
                   ↔ t = timeout second)).
Proof. apply (one_live_timer_per_handle history dm). reflexivity. Defined.

(** The handles of the sample run: 0 and 1 from the history, then 2 and 3. *)
Example second_timer_replaces_first :
  timeout <$> (scheduledDeletions (run history init) !! "msg-1") = Some 0%nat
  ∧ timeout <$> (scheduledDeletions (scheduleDeletion dm (run history init)) !! "msg-1")
    = Some 2%nat
  ∧ timeout <$> (scheduledDeletions (schedule_twice dm (run history init)) !! "msg-1")
    = Some 3%nat
  ∧ dom (timers (schedule_twice dm (run history init))) = {[1%nat; 3%nat]}.
Proof. repeat split; reflexivity. Qed.

Lemma cancel_before_ttl_prevents_deletion_witness :
  scheduledDeletions (schedule_then_cancel dm quarter (run history init))
    !! id dm = None
  ∧ scheduledDeletions
      (run later (schedule_then_cancel dm quarter (run history init)))
      !! id dm = None
  ∧ (∀ t, ¬ live_for
            (run later (schedule_then_cancel dm quarter (run history init)))
            (id dm) t)
  ∧ attempts (run later (schedule_then_cancel dm quarter (run history init)))
             (id dm)
    = attempts (run history init) (id dm).
Proof.
  apply (cancel_before_ttl_prevents_deletion history dm quarter later).
  - reflexivity.
  - simpl. repeat split; intros; apply not_elem_of_nil.
  - vm_compute. apply not_elem_of_nil.
  - reflexivity.
  - vm_compute. reflexivity.
  - reflexivity.
Defined.

(** The other notice, still scheduled, is deleted in the end; [dm] is not. *)
Example cancelled_is_spared :
  delete_calls (run later (schedule_then_cancel dm quarter (run history init)))
  = ["msg-2"].
Proof. reflexivity. Qed.

End TimerScenarios.

(* ===================================================================== *)
(** ** A [schedule] that overlaps a deletion in flight *)
(* ===================================================================== *)

Section RaceScenarios.
Import DMCleanup TimerFixtures.

(** C7 as stated fails on the code: the callback of a timer removes the
    entry of its message by id, also when the entry is by then that of a
    later [schedule].  After [raced] the message [dm] has no entry while
    the timer 1 is pending for it; scheduling [dm] twice from there leaves
    two pending timers for [dm], 1 and 3, of which the registry holds the
    second only. *)
Theorem overlapped_schedule_orphans_timer :
  scheduledDeletions (run raced init) !! id dm = None
  ∧ live_for (run raced init) (id dm) 1
  ∧ live_for (schedule_twice dm (run raced init)) (id dm) 1
  ∧ live_for (schedule_twice dm (run raced init)) (id dm) 3
  ∧ timeout <$> (scheduledDeletions (schedule_twice dm (run raced init)) !! id dm)
    = Some 3%nat
  ∧ ¬ (∀ t t', live_for (schedule_twice dm (run raced init)) (id dm) t →
               live_for (schedule_twice dm (run raced init)) (id dm) t' → t = t').
Proof.
  assert (live_for (schedule_twice dm (run raced init)) (id dm) 1) as H1.
  { exists {| t_message := dm; t_due := 2 * DELETE_AFTER_MS |}.
    split; reflexivity. }
  assert (live_for (schedule_twice dm (run raced init)) (id dm) 3) as H3.
  { exists {| t_message := dm; t_due := 2 * DELETE_AFTER_MS |}.
    split; reflexivity. }
  split; [reflexivity |]. split.
  { exists {| t_message := dm; t_due := 2 * DELETE_AFTER_MS |}.
    split; reflexivity. }
  split; [done |]. split; [done |]. split; [reflexivity |].
  intros H. by specialize (H 1%nat 3%nat H1 H3).
Qed.

(** C8 as stated fails on the code: [schedule dm] while an earlier
    deletion of [dm] is in flight, that deletion settling, then [cancel dm]
    at once: the callback has removed the new entry, so [cancel] finds
    nothing to clear, the timer 1 stays pending, and when it fires half an
    hour later [dm] is deleted once more. *)
Theorem cancel_misses_orphaned_timer :
  respects (id dm) in_flight init
  ∧ attempts (run in_flight init) (id dm) = 1%nat
  ∧ clock (schedule_then_cancel dm [Settle 0 true] (run in_flight init))
    = clock (run in_flight init)
  ∧ scheduledDeletions (schedule_then_cancel dm [Settle 0 true] (run in_flight init))
      !! id dm = None
  ∧ live_for (schedule_then_cancel dm [Settle 0 true] (run in_flight init)) (id dm) 1
  ∧ attempts
      (run expiry (schedule_then_cancel dm [Settle 0 true] (run in_flight init)))
      (id dm) = 2%nat.
Proof.
  split.
  { simpl. repeat split; intros; apply not_elem_of_nil. }
  split; [reflexivity |]. split; [reflexivity |]. split; [reflexivity |].
  split; [| reflexivity].
  exists {| t_message := dm; t_due := 2 * DELETE_AFTER_MS |}. split; reflexivity.
Qed.

End RaceScenarios.

(* ===================================================================== *)
(** ** More on the handler *)
(* ===================================================================== *)

Section HandlerStages.
Import Regex Classifier Database Pipeline Runs.

Variable RANK_CHANNEL_ID : string.
Variable matchRank : text → option MatchedRank.
Variable getRankByName : string → option RankConfig.

Local Abbreviation processImage := (processImage matchRank).
Local Abbreviation collect := (collect matchRank).
Local Abbreviation has_higher_rank := (has_higher_rank getRankByName).
Local Abbreviation prior_rank_higher := (prior_rank_higher getRankByName).
Local Abbreviation verify := (verify getRankByName).
Local Abbreviation handleMessageCreate :=
  (handleMessageCreate RANK_CHANNEL_ID matchRank getRankByName).

(** The exits of the handler, each with the tests that lead to it. *)
Lemma handler_stages env message db :
  (author_bot message = true
   ∧ handleMessageCreate env message db = ignored db)
  ∨ (author_bot message = false ∧ channel_id message ≠ RANK_CHANNEL_ID
     ∧ handleMessageCreate env message db = ignored db)
  ∨ (author_bot message = false ∧ channel_id message = RANK_CHANNEL_ID
     ∧ image_attachments message = []
     ∧ handleMessageCreate env message db = ignored db)
  ∨ (author_bot message = false ∧ channel_id message = RANK_CHANNEL_ID
     ∧ image_attachments message ≠ []
     ∧ List.filter not_profile (collect (image_attachments message)) ≠ []
     ∧ handleMessageCreate env message db =
         {| outcome := RejectInvalid;
            effects := [SendErrorDM (author_id message) InvalidFormat;
                        LogAction "ocr_processed" false; DeleteMessage];
            db_after := db |})
  ∨ (author_bot message = false ∧ channel_id message = RANK_CHANNEL_ID
     ∧ image_attachments message ≠ []
     ∧ List.filter not_profile (collect (image_attachments message)) = []
     ∧ existsb matched (collect (image_attachments message)) = false
     ∧ handleMessageCreate env message db =
         {| outcome := RejectUnreadable;
            effects := [SendErrorDM (author_id message) Unreadable;
                        LogAction "ocr_processed" false; DeleteMessage];
            db_after := db |})
  ∨ (author_bot message = false ∧ channel_id message = RANK_CHANNEL_ID
     ∧ image_attachments message ≠ []
     ∧ List.filter not_profile (collect (image_attachments message)) = []
     ∧ existsb matched (collect (image_attachments message)) = true
     ∧ ∃ bestMatch matchedRank,
         reduce (collect (image_attachments message)) = Some bestMatch
         ∧ r_rank bestMatch = Some matchedRank
         ∧ handleMessageCreate env message db =
             verify env message db matchedRank
                    (level_or_min (r_level bestMatch) matchedRank)).
Proof.
  destruct (author_bot message) eqn:Hbot.
  { left. split; [done |]. unfold Pipeline.handleMessageCreate. by rewrite Hbot. }
  right.
  destruct (String.eqb (channel_id message) RANK_CHANNEL_ID) eqn:Hch.
  2:{ left. split; [done |]. split.
      - intros E. rewrite E, String.eqb_refl in Hch. discriminate.
      - unfold Pipeline.handleMessageCreate. by rewrite Hbot, Hch. }
  right. apply String.eqb_eq in Hch.
  destruct (image_attachments message) as [|a0 atts] eqn:Ea.
  { left. split; [done |]. split; [done |]. split; [done |].
    unfold Pipeline.handleMessageCreate.
    by rewrite Hbot, Hch, String.eqb_refl, Ea. }
  right. rewrite <- Ea.
  assert (image_attachments message ≠ []) as Hne by by rewrite Ea.
  destruct (List.filter not_profile (collect (image_attachments message)))
    as [|r0 rs] eqn:Hinv.
  2:{ left. split; [done |]. split; [done |]. split; [done |]. split; [done |].
      unfold Pipeline.handleMessageCreate.
      rewrite Hbot, Hch, String.eqb_refl. cbn [negb]. cbv zeta.
      rewrite Hinv. rewrite Ea. reflexivity. }
  right.
  destruct (existsb matched (collect (image_attachments message))) eqn:Hm.
  - right. split; [done |]. split; [done |]. split; [done |].
    split; [done |]. split; [done |].
    by apply (handler_selects RANK_CHANNEL_ID matchRank getRankByName).
  - left. split; [done |]. split; [done |]. split; [done |].
    split; [done |]. split; [done |].
    unfold Pipeline.handleMessageCreate.
    rewrite Hbot, Hch, String.eqb_refl. cbn [negb]. cbv zeta.
    rewrite Hinv, Hm. rewrite Ea. cbn [length Nat.eqb Nat.ltb Nat.leb].
    by rewrite orb_true_r.
Qed.

Ltac handler_exits env message db :=
  destruct (handler_stages env message db)
    as [(Hbot & ->)
       | [(Hbot & Hch & ->)
         | [(Hbot & Hch & Himg & ->)
           | [(Hbot & Hch & Himg & Hinv & ->)
             | [(Hbot & Hch & Himg & Hinv & Hm & ->)
               | (Hbot & Hch & Himg & Hinv & Hm & bestMatch & matchedRank
                  & Hred & Hrk & ->)]]]]].

Ltac verify_exits env :=
  unfold Pipeline.verify, getVerification, failed;
  destruct (fetch_member env) as [|[member|]] eqn:Hmem;
  [ | destruct (db_read_fails env) eqn:Hrd;
      [ | destruct (has_higher_rank _ _) eqn:Hhigh;
          [ | destruct (assign_fails env) eqn:Has;
              [ | destruct (db_write_fails env) eqn:Hwr ] ] ]
    | ];
  cbn [outcome effects db_after app].

Ltac member_facts := rewrite ?elem_of_cons, ?elem_of_nil.

Ltac split_cases :=
  repeat match goal with
         | H : _ ∨ _ |- _ => destruct H
         | H : ∃ _, _ |- _ => destruct H
         | H : _ ∧ _ |- _ => destruct H
         | H : False |- _ => destruct H
         end;
  try discriminate; try congruence; eauto 10.

(** X1: the two defensive exits of the handler are never taken: where
    [reduce] runs, [results] is not empty, and the best match always has a
    rank. *)
Theorem defensive_exits_are_dead env message db :
  outcome (handleMessageCreate env message db) ≠ NoRank
  ∧ outcome (handleMessageCreate env message db) ≠ Uncaught.
Proof.
  handler_exits env message db; try (split; discriminate).
  verify_exits env; split; discriminate.
Qed.

(** X2: a run is [Ignored] exactly for a bot author, a message outside the
    rank channel, or a message without image attachment; and these are the
    only runs without any side effect. *)
Theorem ignored_iff_not_a_submission env message db :
  (outcome (handleMessageCreate env message db) = Ignored
   ↔ author_bot message = true
     ∨ channel_id message ≠ RANK_CHANNEL_ID
     ∨ image_attachments message = [])
  ∧ (effects (handleMessageCreate env message db) = []
     ↔ outcome (handleMessageCreate env message db) = Ignored).
Proof.
  handler_exits env message db; cbn [outcome effects ignored].
  - split; [split; [by left | done] | done].
  - split; [split; [by (right; left) | done] | done].
  - split; [split; [by (right; right) | done] | done].
  - split; [split; [discriminate | intros [? | [? | ?]]; congruence] |].
    split; discriminate.
  - split; [split; [discriminate | intros [? | [? | ?]]; congruence] |].
    split; discriminate.
  - verify_exits env;
      (split; [split; [discriminate | intros [? | [? | ?]]; congruence] |]);
      split; discriminate.
Qed.

(** X3: the submitted message is deleted exactly in the runs that decide on
    the submission: invalid, unreadable, no upgrade, accepted.  When the
    member is missing or a collaborator throws, the screenshot stays. *)
Theorem message_deleted_iff_decided env message db :
  DeleteMessage ∈ effects (handleMessageCreate env message db)
  ↔ outcome (handleMessageCreate env message db) = RejectInvalid
    ∨ outcome (handleMessageCreate env message db) = RejectUnreadable
    ∨ outcome (handleMessageCreate env message db) = RejectNoUpgrade
    ∨ ∃ r lvl, outcome (handleMessageCreate env message db) = Accept r lvl.
Proof.
  handler_exits env message db; cbn [outcome effects ignored].
  1-5: member_facts; split; intros; split_cases.
  verify_exits env; member_facts; split; intros; split_cases.
Qed.

(** X4: a run sends at most one direct message, and the outcome tells which:
    the invalid-format, unreadable or processing-error notice, or the
    confirmation, which names the rank and its [level_min].  A rejected
    downgrade, a missing member and an ignored message are silent. *)
Theorem one_notice_per_outcome env message db :
  dms (effects (handleMessageCreate env message db)) =
  match outcome (handleMessageCreate env message db) with
  | RejectInvalid => [SendErrorDM (author_id message) InvalidFormat]
  | RejectUnreadable => [SendErrorDM (author_id message) Unreadable]
  | Failed => [SendErrorDM (author_id message) ProcessingError]
  | Accept r _ =>
      [SendVerificationDM (author_id message) (rank_name r) (level_min r)]
  | _ => []
  end.
Proof.
  handler_exits env message db; try reflexivity.
  verify_exits env; reflexivity.
Qed.

(** X5: the table is written only in an accepted run, after the role of the
    accepted rank was granted, with that rank's name and role for the
    author.  A role is granted only to the member that was fetched, and
    without a table write only when the write throws. *)
Theorem role_before_record env message db :
  (∀ data, UpsertVerification data ∈ effects (handleMessageCreate env message db) →
     ∃ r lvl member,
       outcome (handleMessageCreate env message db) = Accept r lvl
       ∧ effects (handleMessageCreate env message db) =
           [AssignRankRole member (tier r); UpsertVerification data;
            LogAction "verification_updated" true;
            SendVerificationDM (author_id message) (rank_name r) (level_min r);
            DeleteMessage]
       ∧ d_discord_id data = author_id message
       ∧ d_rank_name data = rank_name r
       ∧ d_level_detected data = lvl
       ∧ d_role_id_assigned data = role_id r)
  ∧ (∀ member rc,
       AssignRankRole member rc ∈ effects (handleMessageCreate env message db) →
       fetch_member env = Returns (Some member)
       ∧ ((∃ r lvl, outcome (handleMessageCreate env message db) = Accept r lvl
                    ∧ rc = tier r)
          ∨ (outcome (handleMessageCreate env message db) = Failed
             ∧ db_write_fails env = true
             ∧ db_after (handleMessageCreate env message db) = db))).
Proof.
  handler_exits env message db; cbn [outcome effects db_after ignored].
  1-5: split; intros *; member_facts; intros; split_cases.
  verify_exits env; split.
  all: intros *; member_facts; intros H;
    repeat (destruct H as [H | H]); try done; try discriminate.
  - injection H as -> ->. split; [done |]. by right.
  - injection H as ->. by eexists _, _, _.
  - injection H as -> ->. split; [done |]. left. by eexists _, _.
Qed.

(** A match in [results] is what [processImage] returned for an attachment. *)
Lemma collect_origin atts r rk :
  r ∈ collect atts → r_rank r = Some rk →
  ∃ a, a ∈ atts ∧ success (processImage a) = true
       ∧ rank (processImage a) = Some rk.
Proof.
  induction atts as [|a atts IH]; simpl; [by intros ?%elem_of_nil |].
  intros Hin Hrk.
  assert (r ∈ collect atts → ∃ a0, a0 ∈ a :: atts
            ∧ success (processImage a0) = true
            ∧ rank (processImage a0) = Some rk) as Hrest.
  { intros H. destruct (IH H Hrk) as (a0 & Ha0 & Hs). exists a0.
    split; [by right | done]. }
  destruct (success (processImage a)) eqn:Es;
    destruct (rank (processImage a)) as [rk0|] eqn:Er.
  - apply elem_of_cons in Hin as [-> | Hin]; [| auto].
    simpl in Hrk. injection Hrk as <-. exists a. split; [left | done].
  - destruct (isProfile (processImage a)) as [[|]|]; auto.
    apply elem_of_cons in Hin as [-> | Hin]; [discriminate | auto].
  - destruct (isProfile (processImage a)) as [[|]|]; auto.
    apply elem_of_cons in Hin as [-> | Hin]; [discriminate | auto].
  - destruct (isProfile (processImage a)) as [[|]|]; auto.
    apply elem_of_cons in Hin as [-> | Hin]; [discriminate | auto].
Qed.

(** [processImage] reports a rank only for an image whose text passed the
    classifier and was matched. *)
Lemma processImage_success a rk :
  success (processImage a) = true → rank (processImage a) = Some rk →
  isImage (url_path_ext a) (contentType a) = true
  ∧ ∃ ocr, fetched a = Some ocr
           ∧ isValidProfileScreenshot (ocr_text ocr) = true
           ∧ matchRank (ocr_text ocr) = Some rk.
Proof.
  unfold Pipeline.processImage.
  destruct (isImage _ _); cbn [negb]; [| discriminate].
  destruct (fetched a) as [ocr|]; [| discriminate].
  destruct (isValidProfileScreenshot (ocr_text ocr)) eqn:Ev; cbn [negb];
    [| discriminate].
  destruct (matchRank (ocr_text ocr)) as [rk0|] eqn:Em; [| discriminate].
  cbn. intros _ [= <-]. split; [done |]. by exists ocr.
Qed.

(** X6: an accepted rank is the rank the matcher gave for the text of one
    attachment of the submission, a text that passed the classifier; no
    attachment of the submission was classified as not a profile screen;
    the accepted level is the level of that match, or the tier's
    [level_min]. *)
Theorem accepted_rank_comes_from_profile_text env message db r lvl :
  outcome (handleMessageCreate env message db) = Accept r lvl →
  author_bot message = false
  ∧ channel_id message = RANK_CHANNEL_ID
  ∧ (∀ a, a ∈ image_attachments message → isProfile (processImage a) ≠ Some false)
  ∧ lvl = level_or_min (level_detected r) r
  ∧ ∃ attachment ocr,
      attachment ∈ image_attachments message
      ∧ fetched attachment = Some ocr
      ∧ isValidProfileScreenshot (ocr_text ocr) = true
      ∧ matchRank (ocr_text ocr) = Some r.
Proof.
  handler_exits env message db; try discriminate.
  intros Hacc. apply verify_accept in Hacc as (-> & -> & _ & _).
  split; [done |]. split; [done |].
  pose proof (reduce_elem RANK_CHANNEL_ID getRankByName _ _ Hred) as Hin.
  split; [| split].
  - intros a Ha Hp.
    destruct (collect_keeps_invalid matchRank _ a Ha Hp) as (r & Hr & Hnp).
    pose proof (filter_empty not_profile _ r Hinv Hr). congruence.
  - destruct (collect_entries matchRank _ _ Hin) as [[rk ->] | ->];
      [| discriminate].
    simpl in Hrk. by injection Hrk as ->.
  - destruct (collect_origin _ _ _ Hin Hrk) as (a & Ha & Hs & Hr).
    destruct (processImage_success a _ Hs Hr) as (_ & ocr & Hf & Hv & Hmr).
    by exists a, ocr.
Qed.

(** X7: the same submission sent again is accepted again: the code has no
    duplicate check.  If the name of the accepted rank resolves to no tier
    above the accepted one, and the collaborators answer, the second run
    accepts the same rank and level and only touches [updated_at]. *)
Theorem resubmission_is_accepted_again env env' message db r lvl member :
  outcome (handleMessageCreate env message db) = Accept r lvl →
  (∀ t, getRankByName (rank_name r) = Some t → (level_min t <= level_min r)%Z) →
  fetch_member env' = Returns (Some member) →
  db_read_fails env' = false →
  assign_fails env' = false →
  db_write_fails env' = false →
  outcome (handleMessageCreate env' message
             (db_after (handleMessageCreate env message db))) = Accept r lvl
  ∧ ∃ row,
      db_after (handleMessageCreate env message db) !! author_id message = Some row
      ∧ db_after (handleMessageCreate env' message
                    (db_after (handleMessageCreate env message db)))
        = <[author_id message := touched (now env') row]>
            (db_after (handleMessageCreate env message db)).
Proof.
  intros Hacc Htier Hmem Hrd Has Hwr.
  destruct (handler_stages env message db)
    as [(_ & E) | [(_ & _ & E) | [(_ & _ & _ & E) | [(_ & _ & _ & _ & E)
       | [(_ & _ & _ & _ & _ & E)
         | (Hbot & Hch & Himg & Hinv & Hm & best & rk & Hred & Hrk & E)]]]]];
    rewrite E in Hacc; try discriminate.
  pose proof Hacc as Hacc'.
  apply verify_accept in Hacc' as (-> & -> & _ & Hdb). rewrite <- E in Hdb.
  set (db1 := db_after (handleMessageCreate env message db)) in *.
  destruct (handler_selects RANK_CHANNEL_ID matchRank getRankByName
              env' message db1 Hbot Hch Hinv Hm)
    as (best' & rk' & Hred' & Hrk' & ->).
  rewrite Hred in Hred'. injection Hred' as <-.
  rewrite Hrk in Hrk'. injection Hrk' as <-.
  assert (∃ row, db1 !! author_id message = Some row
                 ∧ v_username row = author_username message
                 ∧ v_rank_name row = rank_name rk
                 ∧ v_level_detected row = level_or_min (r_level best) rk
                 ∧ v_role_id_assigned row = role_id rk)
    as (row & Hrow & Hu & Hn & Hl & Hro).
  { rewrite Hdb. unfold upsertVerification. cbn [d_discord_id].
    destruct (db !! author_id message);
      rewrite lookup_insert_eq; eexists; by split. }
  unfold Pipeline.verify, getVerification, Pipeline.has_higher_rank.
  rewrite Hmem, Hrd, Has, Hwr, Hrow, Hn.
  assert (match getRankByName (rank_name rk) with
          | Some existingRank => (level_min existingRank >? level_min rk)%Z
          | None => false
          end = false) as ->.
  { destruct (getRankByName (rank_name rk)) as [t|] eqn:Et; [| done].
    specialize (Htier t eq_refl). rewrite Z.gtb_ltb. apply Z.ltb_ge. lia. }
  cbn [outcome db_after]. split; [done |]. exists row. split; [done |].
  unfold upsertVerification. cbn [d_discord_id]. rewrite Hrow.
  f_equal. unfold touched.
  cbn [d_username d_rank_name d_level_detected d_role_id_assigned].
  by rewrite Hu, Hn, Hl, Hro.
Qed.

(** X9: a run ends in [RejectNoUpgrade] only if the table holds a row of
    the author whose rank name resolves to a tier strictly above the best
    match; so after [purgeAllVerifications] no run does. *)
Theorem no_upgrade_needs_stored_higher_rank env message db :
  (outcome (handleMessageCreate env message db) = RejectNoUpgrade →
     ∃ bestMatch matchedRank,
       reduce (collect (image_attachments message)) = Some bestMatch
       ∧ r_rank bestMatch = Some matchedRank
       ∧ prior_rank_higher db (author_id message) matchedRank)
  ∧ outcome (handleMessageCreate env message (purgeAllVerifications db).2)
    ≠ RejectNoUpgrade.
Proof.
  assert (∀ db0,
    outcome (handleMessageCreate env message db0) = RejectNoUpgrade →
    ∃ bestMatch matchedRank,
      reduce (collect (image_attachments message)) = Some bestMatch
      ∧ r_rank bestMatch = Some matchedRank
      ∧ prior_rank_higher db0 (author_id message) matchedRank) as Hgen.
  { intros db0. handler_exits env message db0; try discriminate.
    verify_exits env; try discriminate. intros _.
    exists bestMatch, matchedRank. split; [done |]. split; [done |].
    by apply (has_higher_rank_spec getRankByName). }
  split; [apply Hgen |].
  intros H. destruct (Hgen _ H) as (_ & _ & _ & _ & prior & _ & Hrow & _).
  simpl in Hrow. by rewrite lookup_empty in Hrow.
Qed.

Lemma collect_app l1 l2 : collect (l1 ++ l2) = collect l1 ++ collect l2.
Proof.
  induction l1 as [|a l1 IH]; simpl; [done |]. rewrite IH.
  destruct (success (processImage a)), (rank (processImage a));
    try destruct (isProfile (processImage a)) as [[|]|]; done.
Qed.

Lemma collect_skip a l :
  success (processImage a) = false →
  isProfile (processImage a) ≠ Some false →
  collect (a :: l) = collect l.
Proof.
  intros Hs Hp. simpl. rewrite Hs.
  by destruct (isProfile (processImage a)) as [[|]|].
Qed.

(** The handler reads a message through its author, its channel and the
    entries its image attachments leave in [results]. *)
Lemma handler_reads_results env m1 m2 db :
  author_id m1 = author_id m2 →
  author_username m1 = author_username m2 →
  author_bot m1 = author_bot m2 →
  channel_id m1 = channel_id m2 →
  image_attachments m1 ≠ [] →
  image_attachments m2 ≠ [] →
  collect (image_attachments m1) = collect (image_attachments m2) →
  handleMessageCreate env m1 db = handleMessageCreate env m2 db.
Proof.
  intros Hid Hname Hbot Hch H1 H2 Hc.
  unfold Pipeline.handleMessageCreate, Pipeline.verify, failed.
  cbv zeta. rewrite Hid, Hname, Hbot, Hch, Hc.
  destruct (image_attachments m1); [done |].
  by destruct (image_attachments m2).
Qed.

(** X8: an attachment that yields neither a match nor a rejection (not an
    image for [processImage], a failed download or recognition, a profile
    text without a match) does not weigh on the run: among other image
    attachments, the run is the one of the submission without it. *)
Theorem unread_attachment_is_dropped env message db l1 a l2 :
  attachments message = l1 ++ a :: l2 →
  success (processImage a) = false →
  isProfile (processImage a) ≠ Some false →
  image_attachments (with_attachments message (l1 ++ l2)) ≠ [] →
  handleMessageCreate env message db
  = handleMessageCreate env (with_attachments message (l1 ++ l2)) db.
Proof.
  intros Hatt Hs Hp Hne.
  assert (image_attachments (with_attachments message (l1 ++ l2))
          = List.filter (fun a => isImage (url_ext a) (contentType a)) l1
            ++ List.filter (fun a => isImage (url_ext a) (contentType a)) l2)
    as Hwo by apply List.filter_app.
  assert (collect (image_attachments message)
          = collect (image_attachments (with_attachments message (l1 ++ l2)))
          ∧ image_attachments message ≠ []) as [Hc Hne'].
  { rewrite Hwo in *. unfold image_attachments. rewrite Hatt.
    rewrite List.filter_app. cbn [List.filter].
    destruct (isImage (url_ext a) (contentType a)).
    - split; [by rewrite !collect_app, collect_skip |].
      intros E. apply app_eq_nil in E as [_ E]. discriminate.
    - done. }
  by apply handler_reads_results.
Qed.

End HandlerStages.

Section TableFacts.
Import Database.

(** X10: [upsertVerification] followed by [getVerification] for the same
    user returns a row with the five written columns; over an existing row
    the key and [verified_at] are kept, [updated_at] is the time of the
    call and the number of rows is unchanged; without one the table grows
    by one row.  The rows of other users are untouched. *)
Theorem upsert_then_get now data (db : gmap string Verification) :
  (∃ row,
     getVerification (d_discord_id data) (upsertVerification now data db) = Some row
     ∧ v_username row = d_username data
     ∧ v_rank_name row = d_rank_name data
     ∧ v_level_detected row = d_level_detected data
     ∧ v_role_id_assigned row = d_role_id_assigned data
     ∧ (∀ old, getVerification (d_discord_id data) db = Some old →
          v_discord_id row = v_discord_id old
          ∧ v_verified_at row = v_verified_at old
          ∧ v_updated_at row = now
          ∧ size (upsertVerification now data db) = size db)
     ∧ (getVerification (d_discord_id data) db = None →
          v_discord_id row = d_discord_id data
          ∧ size (upsertVerification now data db) = S (size db)))
  ∧ ∀ discordId, discordId ≠ d_discord_id data →
      getVerification discordId (upsertVerification now data db)
      = getVerification discordId db.
Proof.
  unfold getVerification, upsertVerification. split.
  - destruct (db !! d_discord_id data) as [old|] eqn:E;
      rewrite lookup_insert_eq; eexists; (split; [done |]); cbn.
    + do 4 (split; [done |]). split; [| done].
      intros old' [= <-]. do 3 (split; [done |]).
      rewrite map_size_insert. by rewrite E.
    + do 4 (split; [done |]). split; [done |].
      intros _. split; [done |]. by apply map_size_insert_None.
  - intros discordId Hne.
    destruct (db !! d_discord_id data); by rewrite lookup_insert_ne.
Qed.

End TableFacts.

(* ===================================================================== *)
(** ** More on the DM cleanup service *)
(* ===================================================================== *)

Section TimerFacts.
Import DMCleanup Timers.

Implicit Types (s : State) (m : string) (t : nat) (e : Event).

Lemma run_snoc evs e s : run (evs ++ [e]) s = step (run evs s) e.
Proof. unfold run. by rewrite fold_left_app. Qed.

Lemma scheduled_ids_snoc evs e :
  scheduled_ids (evs ++ [e])
  = scheduled_ids evs
    ++ match e with
       | Schedule message => if isDMBased message then [id message] else []
       | _ => []
       end.
Proof.
  induction evs as [|e0 evs IH]; simpl.
  - destruct e as [message| | | | |]; try done;
      try by destruct (isDMBased message).
  - rewrite IH. destruct e0 as [message0| | | | |]; try done;
      try by destruct (isDMBased message0).
Qed.

Lemma describe_cancel s x :
  entries_describe_timers s → entries_describe_timers (cancelDeletion x s).
Proof.
  intros Hd m sd Hsd.
  assert (scheduledDeletions s !! m = Some sd) as Hs.
  { unfold cancelDeletion in Hsd.
    destruct (scheduledDeletions s !! x); [| done].
    simpl in Hsd. by apply lookup_delete_Some in Hsd as [_ ?]. }
  destruct (Hd m sd Hs) as [Hk Ht]. split; [done |].
  intros tm Htm. apply Ht. by eapply cancel_timer_was_pending.
Qed.

Lemma dms_cancel s x : timers_are_dms s → timers_are_dms (cancelDeletion x s).
Proof.
  intros Hd t tm Htm. destruct (cancel_rest s x) as (_ & _ & -> & _).
  apply (Hd t). by eapply cancel_timer_was_pending.
Qed.

Lemma kept_step s e :
  consistent s →
  entries_describe_timers s ∧ timers_are_dms s →
  entries_describe_timers (step s e) ∧ timers_are_dms (step s e).
Proof.
  intros Hs [Hd Hdm]. destruct e as [message | x | | dt | t0 | i ok]; simpl.
  - unfold scheduleDeletion.
    destruct (isDMBased message) eqn:Edm; cbn [negb]; [| done]. cbv zeta.
    pose proof (describe_cancel s (id message) Hd) as Hd1.
    pose proof (dms_cancel s (id message) Hdm) as Hdm1.
    pose proof (consistent_cancel s (id message) Hs) as [Ht1 He1 _].
    destruct (cancel_rest s (id message)) as (_ & _ & Hck & _).
    split.
    + intros m sd Hsd. cbn [scheduledDeletions timers] in *.
      apply lookup_insert_Some in Hsd as [[<- <-] | [Hne Hsd]].
      * split; [done |]. cbn [timeout]. rewrite lookup_insert_eq.
        intros tm [= <-]. cbn. by rewrite Hck.
      * destruct (Hd1 m sd Hsd) as [Hk Htm]. split; [done |].
        pose proof (He1 m sd Hsd). rewrite lookup_insert_ne by lia. done.
    + intros t tm Htm. cbn [timers clock] in *.
      apply lookup_insert_Some in Htm as [[<- <-] | [_ Htm]].
      * cbn. split; [done | lia].
      * by apply (Hdm1 t).
  - split; [by apply describe_cancel | by apply dms_cancel].
  - split.
    + intros m sd Hsd. simpl in Hsd. by rewrite lookup_empty in Hsd.
    + intros t tm Htm. simpl in Htm.
      apply cleanup_timers_lookup in Htm as [Htm _]. by apply (Hdm t).
  - split; [done |]. intros t tm Htm. simpl in *.
    destruct (Hdm t tm Htm). split; [done | lia].
  - unfold fire. destruct (timers s !! t0) as [tm0|] eqn:E0; [| done].
    destruct (t_due tm0 <=? clock s)%N; [| done]. split.
    + intros m sd Hsd. simpl in *. destruct (Hd m sd Hsd) as [Hk Htm].
      split; [done |]. intros tm [_ H]%lookup_delete_Some. by apply Htm.
    + intros t tm H. simpl in H. apply lookup_delete_Some in H as [_ H].
      by apply (Hdm t).
  - unfold settle. destruct (awaiting s !! i) as [message|]; [| done].
    split; [| done].
    intros m sd Hsd. simpl in *.
    assert (scheduledDeletions s !! m = Some sd) as Hsd'.
    { destruct ok; by apply lookup_delete_Some in Hsd as [_ ?]. }
    by apply Hd.
Qed.

(** X11: in every state the service reaches, an entry of the registry is
    filed under its own message id with a [deleteAt] at most the delay
    ahead, and a pending timer it holds is the one that deletes that
    message, in that channel, and may fire from [deleteAt] on; every
    pending timer is for a DM. *)
Theorem entries_describe_their_timers evs :
  (∀ m scheduled,
     scheduledDeletions (run evs init) !! m = Some scheduled →
     messageId scheduled = m
     ∧ ∀ tm, timers (run evs init) !! timeout scheduled = Some tm →
             id (t_message tm) = m
             ∧ channel_id (t_message tm) = channelId scheduled
             ∧ t_due tm = deleteAt scheduled
             ∧ (deleteAt scheduled <= clock (run evs init) + DELETE_AFTER_MS)%N)
  ∧ ∀ t tm, timers (run evs init) !! t = Some tm →
            isDMBased (t_message tm) = true.
Proof.
  assert (entries_describe_timers (run evs init)
          ∧ timers_are_dms (run evs init)) as [Hd Hdm].
  { induction evs as [|e evs IH] using rev_ind.
    - split; intros ? ? H; simpl in H; by rewrite lookup_empty in H.
    - rewrite run_snoc. apply kept_step; [| done].
      apply consistent_run, consistent_init. }
  split.
  - intros m sd Hsd. destruct (Hd m sd Hsd) as [Hk Htm]. split; [done |].
    intros tm Ht. destruct (Htm tm Ht) as (H1 & H2 & H3).
    destruct (Hdm _ _ Ht) as [_ Hle]. rewrite <- H3. done.
  - intros t tm Ht. by destruct (Hdm t tm Ht).
Qed.

Lemma timers_for_mono m (ts' ts : gmap nat Timer) :
  ts' ⊆ ts → (size (timers_for m ts') ≤ size (timers_for m ts))%nat.
Proof.
  intros H. apply map_subseteq_size. by apply map_filter_subseteq_mono.
Qed.

Lemma cancel_timers_subseteq s x : timers (cancelDeletion x s) ⊆ timers s.
Proof.
  apply map_subseteq_spec. intros t tm. apply cancel_timer_was_pending.
Qed.

Lemma cleanup_timers_subseteq s : timers (cleanup s) ⊆ timers s.
Proof.
  apply map_subseteq_spec. intros t tm H. simpl in H.
  by apply cleanup_timers_lookup in H as [H _].
Qed.

Lemma times_scheduled_snoc m evs e :
  times_scheduled m (evs ++ [e])
  = (times_scheduled m evs + (if schedules m e then 1 else 0))%nat.
Proof.
  unfold times_scheduled. rewrite scheduled_ids_snoc, List.filter_app, length_app.
  f_equal. destruct e as [message| | | | |]; try done. simpl.
  rewrite (String.eqb_sym (id message) m).
  destruct (isDMBased message); simpl; [| by rewrite andb_false_r].
  rewrite andb_true_r. by destruct (String.eqb m (id message)).
Qed.

Lemma budget_step s e m k :
  consistent s →
  (attempts s m + size (timers_for m (timers s)) ≤ k)%nat →
  (attempts (step s e) m + size (timers_for m (timers (step s e)))
   ≤ k + (if schedules m e then 1 else 0))%nat.
Proof.
  intros Hs Hk. destruct e as [message | x | | dt | t0 | i ok]; simpl.
  - unfold scheduleDeletion, attempts.
    destruct (isDMBased message) eqn:Edm; cbn [negb]; cbv zeta.
    2:{ rewrite andb_false_r. unfold attempts in Hk. lia. }
    rewrite andb_true_r. cbn [delete_calls timers].
    destruct (cancel_rest s (id message)) as (_ & -> & _).
    pose proof (timers_for_mono m _ _ (cancel_timers_subseteq s (id message))) as Hsub.
    pose proof (consistent_cancel s (id message) Hs) as [Ht1 _ _].
    assert (timers (cancelDeletion (id message) s)
              !! next_timeout (cancelDeletion (id message) s) = None) as Hfresh.
    { destruct (timers _ !! _) eqn:E; [| done]. apply Ht1 in E. lia. }
    unfold timers_for in *. unfold attempts in Hk.
    destruct (String.eqb (id message) m) eqn:Eid.
    + apply String.eqb_eq in Eid.
      rewrite map_filter_insert_True by done.
      rewrite map_size_insert_None; [lia |].
      apply map_lookup_filter_None. by left.
    + apply String.eqb_neq in Eid.
      rewrite map_filter_insert_not' ; [lia | done |].
      intros y Hy. by rewrite Hfresh in Hy.
  - unfold attempts. destruct (cancel_rest s x) as (_ & -> & _).
    pose proof (timers_for_mono m _ _ (cancel_timers_subseteq s x)).
    unfold attempts in Hk. lia.
  - pose proof (timers_for_mono m _ _ (cleanup_timers_subseteq s)).
    unfold attempts in *. simpl in *. lia.
  - unfold attempts in *. simpl. lia.
  - unfold fire. destruct (timers s !! t0) as [tm0|] eqn:E0; [| lia].
    destruct (t_due tm0 <=? clock s)%N; [| lia].
    unfold attempts in *. cbn [delete_calls timers]. unfold timers_for in *.
    destruct (decide (id (t_message tm0) = m)) as [Heq | Hne].
    + rewrite map_filter_delete, map_size_delete_Some.
      2:{ exists tm0. by apply map_lookup_filter_Some. }
      assert (size (filter (λ p : nat * Timer, id (t_message p.2) = m) (timers s)) ≠ 0).
      { intros Hz. apply map_size_empty_iff in Hz.
        assert (filter (λ p : nat * Timer, id (t_message p.2) = m) (timers s)
                  !! t0 = Some tm0) as Hin by by apply map_lookup_filter_Some.
        rewrite Hz in Hin. by rewrite lookup_empty in Hin. }
      simpl. rewrite Heq, String.eqb_refl. simpl. lia.
    + rewrite attempts_cons by done.
      rewrite map_filter_delete_not; [lia |].
      intros y Hy. rewrite E0 in Hy. injection Hy as <-. done.
  - unfold settle. destruct (awaiting s !! i); unfold attempts in *; simpl; lia.
Qed.

(** X12: the deletions the service has attempted on a message and the
    timers it has pending for it together never exceed the number of times
    that DM was scheduled: a message that was never scheduled is never
    deleted, one scheduled once at most once. *)
Theorem deletions_within_schedules evs m :
  (attempts (run evs init) m + size (timers_for m (timers (run evs init)))
   ≤ times_scheduled m evs)%nat.
Proof.
  induction evs as [|e evs IH] using rev_ind; [done |].
  rewrite run_snoc, times_scheduled_snoc.
  apply budget_step; [| done]. apply consistent_run, consistent_init.
Qed.





(** With no timer pending, events that schedule nothing delete nothing. *)
Lemma idle_step s e :
  schedules_dm e = false → timers s = ∅ →
  timers (step s e) = ∅ ∧ delete_calls (step s e) = delete_calls s.
Proof.
  intros He Hts. destruct e as [message | x | | dt | t0 | i ok]; simpl.
  - simpl in He. unfold scheduleDeletion. by rewrite He.
  - destruct (cancel_rest s x) as (_ & -> & _). split; [| done].
    apply map_eq. intros t. rewrite lookup_empty.
    destruct (timers (cancelDeletion x s) !! t) as [tm|] eqn:E; [| done].
    apply cancel_timer_was_pending in E. by rewrite Hts, lookup_empty in E.
  - split; [| done]. apply map_eq. intros t. rewrite lookup_empty.
    destruct (_ !! t) as [tm|] eqn:E; [| done].
    apply cleanup_timers_lookup in E as [E _]. by rewrite Hts, lookup_empty in E.
  - done.
  - unfold fire. by rewrite Hts, lookup_empty.
  - unfold settle. by destruct (awaiting s !! i).
Qed.

Lemma idle_run later : ∀ s,
  existsb schedules_dm later = false → timers s = ∅ →
  timers (run later s) = ∅ ∧ delete_calls (run later s) = delete_calls s.
Proof.
  induction later as [|e evs IH]; intros s Hl Hts; [done |].
  simpl in Hl. apply orb_false_iff in Hl as [He Hl].
  destruct (idle_step s e He Hts) as [Hts' Hdc].
  destruct (IH (step s e) Hl Hts') as [H1 H2]. split; [done |].
  simpl. by rewrite H2.
Qed.

(** X15: [cleanup], as called at shutdown, empties the registry and, when
    no [schedule] ever overlapped a suspended deletion of its message,
    leaves no timer pending: from then on nothing is deleted until a DM is
    scheduled again. *)
Theorem cleanup_cancels_everything evs later :
  (∀ m, respects m evs init) →
  existsb schedules_dm later = false →
  scheduledDeletions (cleanup (run evs init)) = ∅
  ∧ timers (cleanup (run evs init)) = ∅
  ∧ timers (run later (cleanup (run evs init))) = ∅
  ∧ delete_calls (run later (cleanup (run evs init)))
    = delete_calls (run evs init).
Proof.
  intros Hr Hl.
  assert (timers (cleanup (run evs init)) = ∅) as Hts.
  { apply map_eq. intros t. rewrite lookup_empty.
    destruct (timers (cleanup (run evs init)) !! t) as [tm|] eqn:E; [| done].
    simpl in E. apply cleanup_timers_lookup in E as [E Hfree].
    pose proof (tracked_run evs init (id (t_message tm)) (tracked_init _) (Hr _))
      as [Hheld _].
    destruct (Hheld t) as (sd & Hsd & Hto & _); [by exists tm |].
    by destruct (Hfree _ _ Hsd). }
  split; [done |]. split; [done |].
  destruct (idle_run later _ Hl Hts) as [H1 H2]. split; [done |].
  by rewrite H2.
Qed.

(** X16: [schedule] of a DM that has no entry, followed at once by
    [cancel], gives back the registry and the pending timers as they were;
    only a timer handle was used up. *)
Theorem schedule_then_cancel_restores evs message :
  isDMBased message = true →
  scheduledDeletions (run evs init) !! id message = None →
  scheduledDeletions (schedule_then_cancel message [] (run evs init))
    = scheduledDeletions (run evs init)
  ∧ timers (schedule_then_cancel message [] (run evs init)) = timers (run evs init)
  ∧ awaiting (schedule_then_cancel message [] (run evs init))
    = awaiting (run evs init)
  ∧ delete_calls (schedule_then_cancel message [] (run evs init))
    = delete_calls (run evs init)
  ∧ clock (schedule_then_cancel message [] (run evs init)) = clock (run evs init)
  ∧ next_timeout (schedule_then_cancel message [] (run evs init))
    = S (next_timeout (run evs init)).
Proof.
  intros Hdm Hnone.
  pose proof (consistent_run evs init consistent_init) as [Ht _ _].
  set (s := run evs init) in *.
  assert (timers s !! next_timeout s = None) as Hfresh.
  { destruct (timers s !! next_timeout s) eqn:E; [| done]. apply Ht in E. lia. }
  unfold schedule_then_cancel. cbn [run fold_left].
  unfold scheduleDeletion. rewrite Hdm. cbn [negb]. cbv zeta.
  assert (cancelDeletion (id message) s = s) as ->.
  { unfold cancelDeletion. by rewrite Hnone. }
  unfold cancelDeletion. cbn [scheduledDeletions].
  rewrite lookup_insert_eq.
  cbn [scheduledDeletions timers next_timeout clock awaiting delete_calls timeout].
  rewrite (delete_insert_id (scheduledDeletions s)) by done.
  rewrite (delete_insert_id (timers s)) by done. done.
Qed.

End TimerFacts.

(* ===================================================================== *)
(** ** More on the classifier *)
(* ===================================================================== *)

Section ClassifierMore.
Import Regex Classifier.

Lemma is_space_not_letter c : (65 <= c <= 122)%N → is_space c = false.
Proof.
  intros Hc. unfold is_space. cbn [existsb].
  repeat (rewrite (proj2 (N.eqb_neq _ _)) by lia).
  rewrite (proj2 (N.leb_gt _ _)) by lia. reflexivity.
Qed.

Lemma canonicalize_idem c : canonicalize (canonicalize c) = canonicalize c.
Proof.
  unfold canonicalize.
  destruct ((97 <=? c) && (c <=? 122))%N eqn:E; [| by rewrite E].
  apply andb_true_iff in E as [H1 H2].
  apply N.leb_le in H1. apply N.leb_le in H2.
  assert ((c - 32 <=? 122) && (97 <=? c - 32) = false)%N as H.
  { apply andb_false_iff. right. apply N.leb_gt. lia. }
  rewrite andb_comm in H. by rewrite H.
Qed.

Lemma is_space_canonicalize c : is_space (canonicalize c) = is_space c.
Proof.
  unfold canonicalize.
  destruct ((97 <=? c) && (c <=? 122))%N eqn:E; [| done].
  apply andb_true_iff in E as [H1 H2].
  apply N.leb_le in H1. apply N.leb_le in H2.
  rewrite !is_space_not_letter by lia. done.
Qed.

Lemma cs_mem_canonicalize cs c : cs_mem cs (canonicalize c) = cs_mem cs c.
Proof.
  induction cs as [p | lo hi | | a IHa b IHb]; simpl.
  - by rewrite canonicalize_idem.
  - f_equal. by rewrite canonicalize_idem.
  - apply is_space_canonicalize.
  - by rewrite IHa, IHb.
Qed.

Lemma deriv_canonicalize c r : deriv (canonicalize c) r = deriv c r.
Proof.
  induction r as [| | cs | a IHa b IHb | a IHa b IHb | a IHa]; simpl;
    rewrite ?cs_mem_canonicalize, ?IHa, ?IHb; done.
Qed.

Lemma match_at_start_canonicalize s : ∀ r,
  match_at_start r (map canonicalize s) = match_at_start r s.
Proof.
  induction s as [|c s IH]; intros r; simpl; [done |].
  by rewrite deriv_canonicalize, IH.
Qed.

Lemma test_canonicalize r s : test r (map canonicalize s) = test r s.
Proof.
  induction s as [|c s IH]; [done |].
  cbn [map test]. rewrite IH. f_equal.
  apply (match_at_start_canonicalize (c :: s)).
Qed.

Lemma first_hit_ext ps s s' :
  (∀ p, test p s = test p s') → first_hit ps s = first_hit ps s'.
Proof.
  intros H. induction ps as [|p ps IH]; simpl; [done |].
  by rewrite H, IH.
Qed.

(** X17: the classifier does not look at the case of letters: two texts
    that agree once their ASCII letters are upper-cased are classified
    alike. *)
Theorem classifier_ignores_case (s s' : text) :
  map canonicalize s = map canonicalize s' →
  isValidProfileScreenshot s = isValidProfileScreenshot s'.
Proof.
  intros H.
  assert (∀ p, test p s = test p s') as Ht.
  { intros p. by rewrite <- (test_canonicalize p s), H, test_canonicalize. }
  unfold isValidProfileScreenshot.
  by rewrite (first_hit_ext mainMenuIndicators s s' Ht),
             (first_hit_ext profileIndicators s s' Ht).
Qed.

(** A match found in a text is found in every text around it. *)
Lemma test_in_context r t pre post :
  test r t = true → test r (pre ++ t ++ post) = true.
Proof.
  intros (p1 & mid & p2 & -> & Hm)%test_spec. apply test_spec.
  exists (pre ++ p1), mid, (p2 ++ post). split; [| done].
  by rewrite <- !app_assoc.
Qed.

Lemma valid_inv t :
  isValidProfileScreenshot t = true →
  first_hit mainMenuIndicators t = None
  ∧ ∃ p, first_hit profileIndicators t = Some p.
Proof.
  unfold isValidProfileScreenshot.
  destruct (first_hit mainMenuIndicators t); [discriminate |].
  destruct (first_hit profileIndicators t) as [p|]; [| discriminate].
  intros _. split; [done | by exists p].
Qed.

(** X18: text around a main-menu text cannot make it a profile: a text that
    a main-menu pattern matches is rejected within any surrounding text.
    Around an accepted text the profile evidence stays, so the surrounded
    text is accepted unless a main-menu pattern now matches it. *)
Theorem context_cannot_redeem_menu_text (t pre post : text) :
  (Exists (fun p => test p t = true) mainMenuIndicators →
     isValidProfileScreenshot (pre ++ t ++ post) = false)
  ∧ (isValidProfileScreenshot t = true →
       (isValidProfileScreenshot (pre ++ t ++ post) = true
        ↔ ¬ Exists (fun p => test p (pre ++ t ++ post) = true) mainMenuIndicators)).
Proof.
  split.
  - intros Hex. apply menu_hit_rejects.
    apply Exists_exists in Hex as (p & Hin & Hp).
    apply Exists_exists. exists p. split; [done |]. by apply test_in_context.
  - intros Hv. destruct (valid_inv t Hv) as (_ & p & Hp).
    apply first_hit_Some in Hp as [Hin Hpt].
    split.
    + intros Hv'. destruct (valid_inv _ Hv') as (Hnone & _).
      by apply first_hit_None.
    + intros Hno. apply first_hit_None in Hno.
      unfold isValidProfileScreenshot. rewrite Hno.
      destruct (first_hit profileIndicators (pre ++ t ++ post)) eqn:E; [done |].
      apply first_hit_None in E. destruct E.
      apply Exists_exists. exists p. split; [done |]. by apply test_in_context.
Qed.

End ClassifierMore.

(* ===================================================================== *)
(** ** Slash commands *)
(* ===================================================================== *)

Section SlashFacts.
Import SlashCommands.

Variable isAdmin isModerator : string → bool.
Variable handleAdminCommand handleModeratorCommand :
  string → string → list Arg → HandlerRun.

Local Abbreviation admin := (admin handleAdminCommand).
Local Abbreviation moderator := (moderator handleModeratorCommand).
Local Abbreviation try_command :=
  (try_command isAdmin isModerator handleAdminCommand handleModeratorCommand).
Local Abbreviation handleSlashCommand :=
  (handleSlashCommand isAdmin isModerator handleAdminCommand handleModeratorCommand).

Lemma reply_is_edit c : ∃ p, reply c = EditReply p.
Proof. destruct c; simpl; eauto. Qed.

(** A case of a switch makes its one call, then only edits the reply. *)
Lemma dispatch_actions call h confirm a :
  a ∈ actions_of (dispatch call h confirm) → a = call ∨ ∃ p, a = EditReply p.
Proof.
  unfold dispatch.
  assert (∀ l, a ∈ call :: map reply l → a = call ∨ ∃ p, a = EditReply p) as Hl.
  { intros l [-> | Hin]%elem_of_cons; [by left | right].
    apply list_elem_of_fmap in Hin as (c & -> & _). apply reply_is_edit. }
  destruct (threw h); simpl; [apply Hl |].
  destruct (said h) as [|c l]; simpl.
  - rewrite !elem_of_cons, elem_of_nil. intros [-> | [-> | []]]; eauto.
  - apply (Hl (c :: l)).
Qed.

Lemma handler_actions i a :
  a ∈ handleSlashCommand i →
  a ∈ actions_of (try_command i) ∨ ∃ p, a = EditReply p ∨ a = DeferReply.
Proof.
  unfold SlashCommands.handleSlashCommand.
  destruct (negb (isChatInputCommand i)); [by intros ?%elem_of_nil |].
  intros [-> | Hin]%elem_of_cons; [right; exists PError; by right |].
  destruct (try_command i) as [made | made]; simpl; [by left |].
  apply elem_of_app in Hin as [Hin | Hin]; [by left |].
  apply list_elem_of_singleton in Hin as ->. right. exists PError. by left.
Qed.

Ltac switch_case E :=
  let Hin := fresh "Hin" in
  intros [= <-] Hin;
  (split;
   [ rewrite E; unfold admin_commands, moderator_commands;
     rewrite !elem_of_cons; auto 10 | ]);
  try destruct (opt_user _); try destruct (opt_rank _);
  cbn [actions_of] in Hin;
  try (by apply elem_of_nil in Hin);
  apply dispatch_actions in Hin as [-> | ?]; auto.

Lemma admin_switch_cases i t a :
  admin_switch handleAdminCommand i = Some t →
  a ∈ actions_of t →
  commandName i ∈ admin_commands
  ∧ ((∃ args, a = AdminCommand (user_id i) (commandName i) args)
     ∨ ∃ p, a = EditReply p).
Proof.
  unfold admin_switch, SlashCommands.admin. cbv zeta.
  destruct (String.eqb_spec (commandName i) "recheck") as [E|_];
    [switch_case E; eauto |].
  destruct (String.eqb_spec (commandName i) "setrank") as [E|_];
    [switch_case E; eauto |].
  destruct (String.eqb_spec (commandName i) "removerank") as [E|_];
    [switch_case E; eauto |].
  destruct (String.eqb_spec (commandName i) "purgedb") as [E|_];
    [switch_case E; eauto |].
  destruct (String.eqb_spec (commandName i) "logs") as [E|_];
    [switch_case E; eauto |].
  destruct (String.eqb_spec (commandName i) "instructions") as [E|_];
    [switch_case E; eauto |].
  discriminate.
Qed.

Lemma moderator_switch_cases i t a :
  moderator_switch handleModeratorCommand i = Some t →
  a ∈ actions_of t →
  commandName i ∈ moderator_commands
  ∧ ((∃ args, a = ModeratorCommand (user_id i) (commandName i) args)
     ∨ ∃ p, a = EditReply p).
Proof.
  unfold moderator_switch, SlashCommands.moderator. cbv zeta.
  destruct (String.eqb_spec (commandName i) "checkrank") as [E|_];
    [switch_case E; eauto |].
  destruct (String.eqb_spec (commandName i) "listverified") as [E|_];
    [switch_case E; eauto |].
  discriminate.
Qed.

End SlashFacts.

Section SlashAnswers.
Import SlashCommands.

Variable isAdmin isModerator : string → bool.
Variable handleAdminCommand handleModeratorCommand :
  string → string → list Arg → HandlerRun.

Local Abbreviation try_command :=
  (try_command isAdmin isModerator handleAdminCommand handleModeratorCommand).
Local Abbreviation handleSlashCommand :=
  (handleSlashCommand isAdmin isModerator handleAdminCommand handleModeratorCommand).

Lemma try_command_cases i :
  (isAdmin (user_id i) = true
   ∧ ∃ t, admin_switch handleAdminCommand i = Some t ∧ try_command i = t)
  ∨ (isModerator (user_id i) = true
     ∧ (isAdmin (user_id i) = false ∨ admin_switch handleAdminCommand i = None)
     ∧ ∃ t, moderator_switch handleModeratorCommand i = Some t ∧ try_command i = t)
  ∨ ((isAdmin (user_id i) = false ∨ admin_switch handleAdminCommand i = None)
     ∧ (isModerator (user_id i) = false
        ∨ moderator_switch handleModeratorCommand i = None)
     ∧ ((commandName i = "help"
         ∧ try_command i = moderator handleModeratorCommand i [] "Help displayed.")
        ∨ (commandName i ≠ "help"
           ∧ try_command i = Completed [EditReply PDenied]))).
Proof.
  unfold SlashCommands.try_command. cbv zeta.
  destruct (isAdmin (user_id i)) eqn:Ea;
    [destruct (admin_switch handleAdminCommand i) as [t|] eqn:Es |].
  - left. split; [done |]. by exists t.
  - right. destruct (isModerator (user_id i)) eqn:Em;
      [destruct (moderator_switch handleModeratorCommand i) as [t|] eqn:Et |].
    + left. split; [done |]. split; [by right |]. by exists t.
    + right. split; [by right |]. split; [by right |].
      destruct (String.eqb_spec (commandName i) "help"); [left | right]; done.
    + right. split; [by right |]. split; [by left |].
      destruct (String.eqb_spec (commandName i) "help"); [left | right]; done.
  - right. destruct (isModerator (user_id i)) eqn:Em;
      [destruct (moderator_switch handleModeratorCommand i) as [t|] eqn:Et |].
    + left. split; [done |]. split; [by left |]. by exists t.
    + right. split; [by left |]. split; [by right |].
      destruct (String.eqb_spec (commandName i) "help"); [left | right]; done.
    + right. split; [by left |]. split; [by left |].
      destruct (String.eqb_spec (commandName i) "help"); [left | right]; done.
Qed.


Lemma admin_switch_None i :
  commandName i ∉ admin_commands → admin_switch handleAdminCommand i = None.
Proof.
  unfold admin_commands. rewrite !not_elem_of_cons. intros (H1 & H2 & H3 & H4 & H5 & H6 & _).
  unfold admin_switch. cbv zeta.
  apply String.eqb_neq in H1, H2, H3, H4, H5, H6.
  by rewrite H1, H2, H3, H4, H5, H6.
Qed.

Lemma moderator_switch_None i :
  commandName i ∉ moderator_commands →
  moderator_switch handleModeratorCommand i = None.
Proof.
  unfold moderator_commands. rewrite !not_elem_of_cons. intros (H1 & H2 & _).
  unfold moderator_switch. cbv zeta.
  apply String.eqb_neq in H1, H2. by rewrite H1, H2.
Qed.

(** X19: a command handler runs only for the user of the interaction, under
    the name of the command, and with the permission it needs: an admin
    command only for an admin, [checkrank] and [listverified] only for a
    moderator; [help] needs none.  Whoever lacks the permission for the
    command, an admin who is no moderator included, gets the denial and no
    handler runs. *)
Theorem commands_need_their_permission i :
  (∀ author cmd args,
     AdminCommand author cmd args ∈ handleSlashCommand i →
     isAdmin (user_id i) = true ∧ author = user_id i
     ∧ cmd = commandName i ∧ cmd ∈ admin_commands)
  ∧ (∀ author cmd args,
       ModeratorCommand author cmd args ∈ handleSlashCommand i →
       author = user_id i ∧ cmd = commandName i
       ∧ ((isModerator (user_id i) = true ∧ cmd ∈ moderator_commands)
          ∨ cmd = "help"))
  ∧ (isChatInputCommand i = true →
     isAdmin (user_id i) = false ∨ commandName i ∉ admin_commands →
     isModerator (user_id i) = false ∨ commandName i ∉ moderator_commands →
     commandName i ≠ "help" →
     handleSlashCommand i = [DeferReply; EditReply PDenied]).
Proof.
  split; [| split].
  - intros author cmd args Hin.
    apply handler_actions in Hin as [Hin | (p & [H | H])]; try discriminate.
    destruct (try_command_cases i)
      as [(Ha & t & Hs & Ht) | [(Hm & _ & t & Hs & Ht) | (_ & _ & [[Hh Ht] | [Hh Ht]])]];
      rewrite Ht in Hin.
    + destruct (admin_switch_cases _ _ _ _ Hs Hin) as [Hc [(args' & E) | (p & E)]];
        [| discriminate].
      injection E as -> -> ->. done.
    + destruct (moderator_switch_cases _ _ _ _ Hs Hin) as [Hc [(args' & E) | (p & E)]];
        discriminate.
    + apply dispatch_actions in Hin as [E | (p & E)]; discriminate.
    + simpl in Hin. apply list_elem_of_singleton in Hin. discriminate.
  - intros author cmd args Hin.
    apply handler_actions in Hin as [Hin | (p & [H | H])]; try discriminate.
    destruct (try_command_cases i)
      as [(Ha & t & Hs & Ht) | [(Hm & _ & t & Hs & Ht) | (_ & _ & [[Hh Ht] | [Hh Ht]])]];
      rewrite Ht in Hin.
    + destruct (admin_switch_cases _ _ _ _ Hs Hin) as [Hc [(args' & E) | (p & E)]];
        discriminate.
    + destruct (moderator_switch_cases _ _ _ _ Hs Hin) as [Hc [(args' & E) | (p & E)]];
        [| discriminate].
      injection E as -> -> ->. split; [done |]. split; [done |]. by left.
    + apply dispatch_actions in Hin as [E | (p & E)]; [| discriminate].
      injection E as -> -> ->. split; [done |]. split; [done |]. by right.
    + simpl in Hin. apply list_elem_of_singleton in Hin. discriminate.
  - intros Hchat Ha Hm Hh.
    unfold SlashCommands.handleSlashCommand, SlashCommands.try_command.
    rewrite Hchat. cbn [negb]. cbv zeta.
    assert ((if isAdmin (user_id i) then admin_switch handleAdminCommand i else None)
            = None) as ->.
    { destruct Ha as [-> | Ha]; [done |]. rewrite admin_switch_None by done.
      by destruct (isAdmin _). }
    assert ((if isModerator (user_id i)
             then moderator_switch handleModeratorCommand i else None) = None) as ->.
    { destruct Hm as [-> | Hm]; [done |]. rewrite moderator_switch_None by done.
      by destruct (isModerator _). }
    apply String.eqb_neq in Hh. by rewrite Hh.
Qed.

Lemma dispatch_answers call h confirm :
  (∃ made p, dispatch call h confirm = Completed (made ++ [EditReply p]))
  ∨ ∃ made, dispatch call h confirm = Thrown made.
Proof.
  unfold dispatch. destruct (threw h); [right; by eexists |]. left.
  destruct (said h) as [|c l] eqn:E; [by eexists _, _ |].
  assert (c :: l ≠ []) as Hne by done.
  destruct (exists_last Hne) as (l' & c' & ->).
  destruct (reply_is_edit c') as [p Hp].
  exists (call :: map reply l'), p.
  by rewrite map_app, <- Hp.
Qed.

Lemma try_command_answers i :
  (∃ made p, try_command i = Completed (made ++ [EditReply p]))
  ∨ ∃ made, try_command i = Thrown made.
Proof.
  destruct (try_command_cases i)
    as [(Ha & t & Hs & ->) | [(Hm & _ & t & Hs & ->) | (_ & _ & [[Hh ->] | [Hh ->]])]].
  - revert Hs. unfold admin_switch, SlashCommands.admin. cbv zeta.
    repeat (destruct (String.eqb _ _));
      intros [= <-]; try destruct (opt_user i); try destruct (opt_rank i);
      try apply dispatch_answers; right; by eexists.
  - revert Hs. unfold moderator_switch, SlashCommands.moderator. cbv zeta.
    repeat (destruct (String.eqb _ _));
      intros [= <-]; try destruct (opt_user i);
      try apply dispatch_answers; right; by eexists.
  - apply dispatch_answers.
  - left. by exists [], PDenied.
Qed.

(** X20: every chat-input interaction is answered: the reply is deferred
    first and the last thing done is an edit of the reply, be it a reply of
    the handler, the confirmation when the handler stayed silent, the
    denial, or the error notice when a handler or a missing option throws. *)
Theorem every_command_is_answered i :
  isChatInputCommand i = true →
  ∃ made p, handleSlashCommand i = DeferReply :: made ++ [EditReply p].
Proof.
  intros Hchat. unfold SlashCommands.handleSlashCommand. rewrite Hchat. cbn [negb].
  destruct (try_command_answers i) as [(made & p & ->) | (made & ->)].
  - by exists made, p.
  - by exists made, PError.
Qed.

End SlashAnswers.

(* ===================================================================== *)
(** ** Autocompletion, the channel instructions, and DMs scheduled once *)
(* ===================================================================== *)

Section AutocompleteFacts.
Import Pipeline SlashCommands.

Variable toLowerCase : string → string.
Variable allRanks : list RankConfig.

Lemma prefix_spec q s : String.prefix q s = true ↔ ∃ post, s = (q +:+ post).
Proof.
  revert s. induction q as [|a q IH]; intros s.
  - split; [intros _; by exists s | by destruct s].
  - destruct s as [|b s].
    { split; [discriminate | intros [post H]; discriminate]. }
    change (String.prefix (String a q) (String b s))
      with (if Ascii.ascii_dec a b then String.prefix q s else false).
    destruct (Ascii.ascii_dec a b) as [-> | Hne].
    + rewrite IH. split; intros [post H]; exists post.
      * by rewrite H.
      * by injection H.
    + split; [discriminate |]. intros [post H]. injection H as H1 H2. congruence.
Qed.

(** [includes] finds [q] exactly when [s] is some text, [q], some text. *)
Lemma includes_spec q s :
  includes q s = true ↔ ∃ pre post, s = (pre +:+ q +:+ post).
Proof.
  induction s as [|a s IH].
  - cbn [includes]. rewrite orb_false_r, prefix_spec. split.
    + intros [post H]. by exists "", post.
    + intros (pre & post & H). destruct pre; [by exists post | discriminate].
  - cbn [includes]. rewrite orb_true_iff, IH, prefix_spec. split.
    + intros [[post H] | (pre & post & ->)].
      * by exists "", post.
      * by exists (String a pre), post.
    + intros (pre & post & H). destruct pre as [|b pre].
      * left. by exists post.
      * right. injection H as _ ->. by exists pre, post.
Qed.

(** X21: for the option [rank] the autocompletion answers with at most 25
    choices, the Discord limit; each choice names, and has as its value, a
    configured rank whose lower-cased name contains the lower-cased text
    typed so far; the choices come in the order of the rank table, and when
    25 or fewer ranks qualify all of them are offered.  For any other
    option nothing is answered. *)
Theorem autocomplete_offers_matching_ranks focused_name focused_value :
  (focused_name ≠ "rank" →
     handleAutocomplete toLowerCase allRanks focused_name focused_value = None)
  ∧ ∃ choices,
      handleAutocomplete toLowerCase allRanks "rank" focused_value = Some choices
      ∧ (length choices ≤ 25)%nat
      ∧ (∀ c, c ∈ choices →
           value c = name c
           ∧ ∃ rank pre post,
               rank ∈ allRanks ∧ name c = rank_name rank
               ∧ toLowerCase (rank_name rank)
                 = (pre +:+ toLowerCase focused_value +:+ post))
      ∧ (name <$> choices) `sublist_of` (rank_name <$> allRanks)
      ∧ ((length (List.filter
                    (fun rank => includes (toLowerCase focused_value)
                                          (toLowerCase (rank_name rank)))
                    allRanks) ≤ 25)%nat →
         ∀ rank, rank ∈ allRanks →
           includes (toLowerCase focused_value) (toLowerCase (rank_name rank)) = true →
           {| name := rank_name rank; value := rank_name rank |} ∈ choices).
Proof.
  split.
  - intros Hne. unfold handleAutocomplete.
    apply String.eqb_neq in Hne. by rewrite Hne.
  - unfold handleAutocomplete. cbn [String.eqb Ascii.eqb Bool.eqb]. cbv zeta.
    set (f := fun rank => includes (toLowerCase focused_value)
                                   (toLowerCase (rank_name rank))).
    eexists. split; [reflexivity |]. split; [| split; [| split]].
    + rewrite length_map, length_take. lia.
    + intros c Hc. apply list_elem_of_fmap in Hc as (rank & -> & Hr).
      split; [done |].
      assert (rank ∈ List.filter f allRanks) as Hf.
      { eapply elem_of_sublist; [exact Hr | apply sublist_take]. }
      apply list_elem_of_In, filter_In in Hf as [Hin Hf].
      apply includes_spec in Hf as (pre & post & Hf).
      exists rank, pre, post. split; [by apply list_elem_of_In | done].
    + rewrite <- list_fmap_compose.
      assert (take 25 (List.filter f allRanks) `sublist_of` allRanks) as Hsub.
      { etrans; [apply sublist_take |].
        clear. induction allRanks as [|r l IH]; simpl; [done |].
        destruct (f r); [by constructor | by constructor]. }
      by apply (fmap_sublist (fun r => rank_name r)) in Hsub.
    + intros Hlen rank Hin Hf.
      rewrite take_ge by done.
      apply (list_elem_of_fmap_2
               (fun rank => {| name := rank_name rank; value := rank_name rank |})).
      apply list_elem_of_In, filter_In. split; [by apply list_elem_of_In | done].
Qed.

End AutocompleteFacts.

Section InstructionFacts.
Import Pipeline Instructions.

(** X22: starting the bot again does not post the instructions again: with
    the client ready and the last ten messages of the channel readable, a
    second run finds the post of the first, or what the first had found,
    and leaves the channel as it is. *)
Theorem instructions_are_posted_once env channel :
  ready env = true →
  has_messages channel = true →
  fetch_fails channel = false →
  start env (start env channel) = start env channel
  ∧ (start env channel = channel
     ∨ ∃ post, sendVerificationChannelInstructions env (Returns (Some channel))
               = Some post
               ∧ post_title post = TITLE
               ∧ messages (start env channel)
                 = {| msg_author := bot env; msg_embed_titles := [Some TITLE] |}
                   :: messages channel).
Proof.
  intros Hready Hmsgs Hfetch.
  assert (start env channel
          = posted env channel
              (sendVerificationChannelInstructions env (Returns (Some channel))))
    as Hstart by reflexivity.
  rewrite !Hstart.
  destruct (sendVerificationChannelInstructions env (Returns (Some channel)))
    as [post|] eqn:E1; cbn [posted].
  2:{ split; [| by left]. by rewrite Hstart. }
  assert (truthy_string (RANK_CHANNEL_ID env) = true
          ∧ isTextBased channel = true ∧ isDMBased channel = false
          ∧ post = the_post env) as (H1 & H2 & H3 & Hpost).
  { revert E1. unfold sendVerificationChannelInstructions.
    destruct (truthy_string _); [| discriminate].
    destruct (isTextBased channel); [| discriminate].
    destruct (isDMBased channel); [discriminate |]. cbn [negb orb]. cbv zeta.
    destruct (if has_messages channel then _ else _); [discriminate |].
    destruct (has_send channel); [| discriminate].
    destruct (send_fails channel); [discriminate |]. by intros [= <-]. }
  assert (post_title post = TITLE) as Ht.
  { rewrite Hpost. unfold the_post.
    destruct (exampleImagePath env); [done |].
    by destruct (truthy_string (EXAMPLE_IMAGE_URL env)). }
  rewrite Ht.
  split; [| right; by exists post].
  unfold start, sendVerificationChannelInstructions.
  cbn [isTextBased isDMBased has_messages fetch_fails messages].
  rewrite H1, H2, H3, Hmsgs, Hfetch. cbn [negb orb]. cbv zeta.
  cbn [take List.find].
  unfold is_instructions at 1. cbn [msg_author msg_embed_titles].
  rewrite Hready, !String.eqb_refl. done.
Qed.

End InstructionFacts.

Section DisciplineFacts.
Import DMCleanup Timers.

Lemma scheduled_ids_app evs1 evs2 :
  scheduled_ids (evs1 ++ evs2) = scheduled_ids evs1 ++ scheduled_ids evs2.
Proof.
  induction evs1 as [|e evs1 IH]; simpl; [done |].
  destruct e as [message| | | | |]; try done.
  destruct (isDMBased message); simpl; by rewrite IH.
Qed.

(** What waits for its deletion to settle, and what has a timer, was
    scheduled. *)
Lemma in_flight_was_scheduled evs :
  (∀ t tm, timers (run evs init) !! t = Some tm →
           id (t_message tm) ∈ scheduled_ids evs)
  ∧ (∀ m, m ∈ id <$> awaiting (run evs init) → m ∈ scheduled_ids evs).
Proof.
  induction evs as [|e evs [IHt IHa]] using rev_ind.
  - split; [intros t tm H; simpl in H; by rewrite lookup_empty in H |].
    simpl. by intros m ?%elem_of_nil.
  - rewrite run_snoc, scheduled_ids_snoc.
    set (s := run evs init) in *.
    destruct e as [message | x | | dt | t0 | i ok]; simpl;
      rewrite ?app_nil_r.
    + unfold scheduleDeletion. destruct (isDMBased message); cbn [negb];
        [| rewrite app_nil_r; by split].
      cbv zeta. destruct (cancel_rest s (id message)) as (Haw & _).
      split.
      * intros t tm Htm. cbn [timers] in Htm. apply elem_of_app.
        apply lookup_insert_Some in Htm as [[_ <-] | [_ Htm]].
        -- right. simpl. by apply list_elem_of_singleton.
        -- left. eapply IHt. by eapply cancel_timer_was_pending.
      * cbn [awaiting]. rewrite Haw. intros m Hm. apply elem_of_app. left. auto.
    + destruct (cancel_rest s x) as (Haw & _). rewrite Haw. split; [| done].
      intros t tm Htm. eapply IHt. by eapply cancel_timer_was_pending.
    + split; [| done]. intros t tm Htm.
      apply cleanup_timers_lookup in Htm as [Htm _]. by eapply IHt.
    + done.
    + unfold fire. destruct (timers s !! t0) as [tm0|] eqn:E0; [| done].
      destruct (t_due tm0 <=? clock s)%N; [| done]. split.
      * intros t tm Htm. simpl in Htm.
        apply lookup_delete_Some in Htm as [_ Htm]. by eapply IHt.
      * simpl. rewrite fmap_app. intros m [Hm | Hm]%elem_of_app; [auto |].
        apply list_elem_of_singleton in Hm as ->. by eapply IHt.
    + unfold settle. destruct (awaiting s !! i) as [message|]; [| done].
      split; [done |]. simpl. intros m Hm. apply IHa.
      apply list_elem_of_fmap in Hm as (x & -> & Hx). apply list_elem_of_fmap_2.
      eapply elem_of_sublist; [exact Hx | apply sublist_delete].
Qed.

Lemma respects_from evs : ∀ pre m,
  NoDup (scheduled_ids (pre ++ evs)) → respects m evs (run pre init).
Proof.
  induction evs as [|e evs IH]; intros pre m Hnd; [done |].
  split.
  - destruct e as [message| | | | |]; try done.
    intros Hid Hdm Hin.
    apply (in_flight_was_scheduled pre) in Hin.
    rewrite scheduled_ids_app in Hnd. simpl in Hnd. rewrite Hdm in Hnd.
    apply NoDup_app in Hnd as (_ & Hdisj & _).
    apply (Hdisj m Hin). rewrite Hid. left.
  - rewrite <- run_snoc. apply IH. by rewrite <- app_assoc.
Qed.

Lemma filter_eqb_NoDup m (l : list string) :
  NoDup l → (length (List.filter (String.eqb m) l) ≤ 1)%nat.
Proof.
  induction 1 as [|x l Hx Hnd IH]; simpl; [lia |].
  destruct (String.eqb_spec m x) as [<- | Hne]; [| done].
  assert (List.filter (String.eqb m) l = []) as ->; [| simpl; lia].
  clear -Hx. induction l as [|y l IHl]; [done |]. simpl.
  apply not_elem_of_cons in Hx as [Hne Hx].
  apply String.eqb_neq in Hne. rewrite Hne. by apply IHl.
Qed.

Lemma budget_run evs m :
  (attempts (run evs init) m + size (timers_for m (timers (run evs init)))
   ≤ times_scheduled m evs)%nat.
Proof.
  induction evs as [|e evs IH] using rev_ind; [done |].
  rewrite run_snoc, times_scheduled_snoc.
  apply budget_step; [| done]. apply consistent_run, consistent_init.
Qed.

(** X23: when no DM is scheduled twice, as with [sendVerificationDM] and
    [sendErrorDM], which schedule the message they have just sent, no
    [schedule] overlaps a suspended deletion of its message, and each
    message is deleted at most once: one that has a timer pending has not
    been deleted. *)
Theorem fresh_messages_are_deleted_once evs :
  NoDup (scheduled_ids evs) →
  (∀ m, respects m evs init)
  ∧ ∀ m, (attempts (run evs init) m + size (timers_for m (timers (run evs init)))
          ≤ 1)%nat.
Proof.
  intros Hnd. split.
  - intros m. by apply (respects_from evs []).
  - intros m. etrans; [apply budget_run |]. by apply filter_eqb_NoDup.
Qed.

End DisciplineFacts.

(* ===================================================================== *)
(** ** More sample runs *)
(* ===================================================================== *)

Section MoreScenarios.
Import Regex Classifier Database Pipeline Runs Fixtures HandlerFixtures.

Lemma accepted_rank_comes_from_profile_text_witness :
  author_bot platinum_shot = false
  ∧ channel_id platinum_shot = RANK_CHANNEL_ID
  ∧ (∀ a, a ∈ image_attachments platinum_shot →
          isProfile (processImage matchRank a) ≠ Some false)
  ∧ 93%Z = level_or_min (level_detected rk_platinum) rk_platinum
  ∧ ∃ attachment ocr,
      attachment ∈ image_attachments platinum_shot
      ∧ fetched attachment = Some ocr
      ∧ isValidProfileScreenshot (ocr_text ocr) = true
      ∧ matchRank (ocr_text ocr) = Some rk_platinum.
Proof.
  apply (accepted_rank_comes_from_profile_text
           RANK_CHANNEL_ID matchRank getRankByName all_fine platinum_shot db_gold70
           rk_platinum 93).
  vm_compute. reflexivity.
Defined.

Lemma resubmission_is_accepted_again_witness :
  outcome (handle all_fine platinum_shot
             (db_after (handle all_fine platinum_shot db_gold70)))
    = Accept rk_platinum 93
  ∧ ∃ row,
      db_after (handle all_fine platinum_shot db_gold70) !! author_id platinum_shot
        = Some row
      ∧ db_after (handle all_fine platinum_shot
                    (db_after (handle all_fine platinum_shot db_gold70)))
        = <[author_id platinum_shot := touched (now all_fine) row]>
            (db_after (handle all_fine platinum_shot db_gold70)).
Proof.
  apply (resubmission_is_accepted_again
           RANK_CHANNEL_ID matchRank getRankByName all_fine all_fine platinum_shot
           db_gold70 rk_platinum 93 "member-1").
  - vm_compute. reflexivity.
  - intros t Ht. vm_compute in Ht. injection Ht as <-. simpl. lia.
  - reflexivity.
  - reflexivity.
  - reflexivity.
  - reflexivity.
Defined.

Lemma unread_attachment_is_dropped_witness :
  handle all_fine with_failed_download db_gold70
  = handle all_fine
      (with_attachments with_failed_download ([screenshot text_platinum] ++ []))
      db_gold70.
Proof.
  apply (unread_attachment_is_dropped
           RANK_CHANNEL_ID matchRank getRankByName all_fine with_failed_download
           db_gold70 [screenshot text_platinum] failed_download []).
  - reflexivity.
  - reflexivity.
  - vm_compute. discriminate.
  - vm_compute. discriminate.
Defined.

Lemma classifier_ignores_case_witness :
  isValidProfileScreenshot (code_units "Level Progress")
  = isValidProfileScreenshot (code_units "LEVEL progress").
Proof.
  apply (classifier_ignores_case (code_units "Level Progress")
                                 (code_units "LEVEL progress")).
  vm_compute. reflexivity.
Defined.

End MoreScenarios.

Section MoreTimerScenarios.
Import DMCleanup Timers TimerFixtures.



Lemma cleanup_cancels_everything_witness :
  scheduledDeletions (cleanup (run history init)) = ∅
  ∧ timers (cleanup (run history init)) = ∅
  ∧ timers (run later (cleanup (run history init))) = ∅
  ∧ delete_calls (run later (cleanup (run history init)))
    = delete_calls (run history init).
Proof.
  apply (cleanup_cancels_everything history later).
  - intros m. simpl. repeat split; intros; apply not_elem_of_nil.
  - reflexivity.
Defined.

Lemma schedule_then_cancel_restores_witness :
  scheduledDeletions (schedule_then_cancel dm [] (run [Schedule other] init))
    = scheduledDeletions (run [Schedule other] init)
  ∧ timers (schedule_then_cancel dm [] (run [Schedule other] init))
    = timers (run [Schedule other] init)
  ∧ awaiting (schedule_then_cancel dm [] (run [Schedule other] init))
    = awaiting (run [Schedule other] init)
  ∧ delete_calls (schedule_then_cancel dm [] (run [Schedule other] init))
    = delete_calls (run [Schedule other] init)
  ∧ clock (schedule_then_cancel dm [] (run [Schedule other] init))
    = clock (run [Schedule other] init)
  ∧ next_timeout (schedule_then_cancel dm [] (run [Schedule other] init))
    = S (next_timeout (run [Schedule other] init)).
Proof.
  apply (schedule_then_cancel_restores [Schedule other] dm).
  - reflexivity.
  - reflexivity.
Defined.

Lemma fresh_messages_are_deleted_once_witness :
  (∀ m, respects m history init)
  ∧ ∀ m, (attempts (run history init) m
          + size (timers_for m (timers (run history init))) ≤ 1)%nat.
Proof.
  apply (fresh_messages_are_deleted_once history).
  apply (bool_decide_unpack _). vm_compute. exact I.
Defined.

End MoreTimerScenarios.

Section SlashScenarios.
Import Pipeline SlashCommands Instructions MoreFixtures.

Lemma every_command_is_answered_witness :
  ∃ made p,
    run_slash (slash "admin-1" "purgedb") = DeferReply :: made ++ [EditReply p].
Proof.
  apply (every_command_is_answered isAdmin isModerator handleAdminCommand
           handleModeratorCommand (slash "admin-1" "purgedb")).
  reflexivity.
Defined.

(** The handler threw: the error notice is the answer. *)
Example purgedb_throws :
  run_slash (slash "admin-1" "purgedb")
  = [DeferReply; AdminCommand "admin-1" "purgedb" []; EditReply PError].
Proof. reflexivity. Qed.

(** A moderator has no admin command. *)
Example moderator_is_denied_setrank :
  run_slash (slash "mod-1" "setrank") = [DeferReply; EditReply PDenied].
Proof. reflexivity. Qed.

Lemma instructions_are_posted_once_witness :
  start env_ready (start env_ready (rank_channel (chatter 3)))
    = start env_ready (rank_channel (chatter 3))
  ∧ (start env_ready (rank_channel (chatter 3)) = rank_channel (chatter 3)
     ∨ ∃ post,
         sendVerificationChannelInstructions env_ready
           (Returns (Some (rank_channel (chatter 3)))) = Some post
         ∧ post_title post = TITLE
         ∧ messages (start env_ready (rank_channel (chatter 3)))
           = {| msg_author := bot env_ready; msg_embed_titles := [Some TITLE] |}
             :: messages (rank_channel (chatter 3))).
Proof.
  apply (instructions_are_posted_once env_ready (rank_channel (chatter 3)));
    reflexivity.
Defined.

(** Ten messages later the post is out of the window that is checked, and
    the next start posts the instructions again. *)
Example old_post_is_not_seen :
  length (messages (start env_ready (start env_ready (rank_channel []))))
  = 1%nat
  ∧ length (messages
              (start env_ready
                 (rank_channel
                    (chatter 10 ++ messages (start env_ready (rank_channel []))))))
    = 12%nat.
Proof. split; reflexivity. Qed.

End SlashScenarios.
